(** * Iceberg: the event router and its dispatcher

    A shallow embedding of [backend/program/state_transition.py]
    ([process_event]) and of the parts of [backend/program/program.py] that
    drive it ([Program.validate], [Program._process_future_item],
    [Program._submit_job], the body of [Program.run], and the methods that
    fill and empty the queue), followed by the Orionoid scraper
    ([scrapers/orionoid.py]), the dictionary of scraped torrents
    ([versions/parser.py]) and the section refresh of [plex.py].

    Media items are Python objects that are shared and mutated in place, and
    that point at each other (a season knows its show, a show lists its
    seasons).  They are therefore kept in a store indexed by object identity;
    every function that the source lets mutate an item takes the store and
    returns the new one. *)

From Stdlib Require Import ZArith.
From stdpp Require Import base option list gmap strings pretty sorting.

Open Scope Z_scope.

(** ** Services *)

(** The service classes that [program.py] registers, used as dictionary keys
    and as the [emitted_by] tag of an event.  [Program] is the class of the
    dispatcher itself: [_retry_library] and [add_to_queue] tag their events
    with [self.__class__]. *)
Inductive Service :=
  | Overseerr | PlexWatchlist | Listrr | Mdblist | TraktContent
  | TraktIndexer
  | Scraping | Symlinker | PlexUpdater | Downloader
  | SymlinkLibrary | PlexLibrary
  | Program.

Global Instance Service_eq_dec : EqDecision Service.
Proof. solve_decision. Defined.

Definition Service_to_nat (s : Service) : nat :=
  match s with
  | Overseerr => 0 | PlexWatchlist => 1 | Listrr => 2 | Mdblist => 3
  | TraktContent => 4 | TraktIndexer => 5 | Scraping => 6 | Symlinker => 7
  | PlexUpdater => 8 | Downloader => 9 | SymlinkLibrary => 10
  | PlexLibrary => 11 | Program => 12
  end%nat.

Definition Service_of_nat (n : nat) : option Service :=
  match n with
  | 0 => Some Overseerr | 1 => Some PlexWatchlist | 2 => Some Listrr
  | 3 => Some Mdblist | 4 => Some TraktContent | 5 => Some TraktIndexer
  | 6 => Some Scraping | 7 => Some Symlinker | 8 => Some PlexUpdater
  | 9 => Some Downloader | 10 => Some SymlinkLibrary | 11 => Some PlexLibrary
  | 12 => Some Program | _ => None
  end%nat.

Global Program Instance Service_countable : Countable Service :=
  inj_countable Service_to_nat Service_of_nat _.
Next Obligation. by intros []. Qed.

(** ** Media items *)

(** [program.media.state.States]. *)
Inductive States :=
  | Unknown | Indexed | Scraped | Downloaded | Symlinked | Completed
  | PartiallyCompleted.

Global Instance States_eq_dec : EqDecision States.
Proof. solve_decision. Defined.

(** Identity of a Python object. *)
Abbreviation ref := positive.

(** The four item classes with the links each one carries: [Show.seasons],
    [Season.parent] and [Season.episodes], [Episode.parent]. *)
Inductive Body :=
  | MovieB
  | ShowB (seasons : list ref)
  | SeasonB (parent : ref) (episodes : list ref)
  | EpisodeB (parent : ref).

(** Modelled from the spec: the classes of [program.media.item] are not among
    the sources.  The fields are the common header of section 3 of the
    specification, plus the selected torrent that the leaf classification of
    section 4.2 tests. *)
Record MediaItem := mkItem {
  item_id : string;
  imdb_id : option string;
  title : option string;
  number : Z;
  indexed_at : option Z;
  scraped_times : Z;
  active_stream : option string;
  file : option string;
  folder : option string;
  symlinked : bool;
  update_folder : option string;
  body : Body
}.

Definition set_indexed_at (v : option Z) (o : MediaItem) : MediaItem :=
  mkItem (item_id o) (imdb_id o) (title o) (number o) v (scraped_times o)
         (active_stream o) (file o) (folder o) (symlinked o)
         (update_folder o) (body o).

(** The store: which object lives at which identity. *)
Abbreviation Heap := (gmap ref MediaItem).

(** [isinstance] tests. *)
Definition is_Movie (o : MediaItem) : bool :=
  match body o with MovieB => true | _ => false end.
Definition is_Show (o : MediaItem) : bool :=
  match body o with ShowB _ => true | _ => false end.
Definition is_Season (o : MediaItem) : bool :=
  match body o with SeasonB _ _ => true | _ => false end.
Definition is_Episode (o : MediaItem) : bool :=
  match body o with EpisodeB _ => true | _ => false end.

(** [item.parent]; a movie or a show has no such attribute. *)
Definition parent_of (o : MediaItem) : option ref :=
  match body o with
  | SeasonB p _ | EpisodeB p => Some p
  | _ => None
  end.

(** [Show.seasons], [Season.episodes]. *)
Definition children_of (o : MediaItem) : list ref :=
  match body o with
  | ShowB seasons => seasons
  | SeasonB _ episodes => episodes
  | _ => []
  end.

(** Truth value of an optional string: [None] and [""] are false. *)
Definition truthy (s : option string) : bool :=
  match s with
  | Some s => negb (String.eqb s "")
  | None => false
  end.

(** ** What the router calls but the sources do not define *)

(** The [state] property and the two merging methods of [MediaItem], and the
    static predicates of the indexer, the scraper and the symlinker.  The
    router is defined and verified for every implementation of them.  The
    merging methods mutate [self] (and may reach its children), hence the
    store in and out; the first reference is [self], the second [other]. *)
Class Collaborators := {
  state : Heap → ref → States;
  fill_in_missing_children : ref → ref → Heap → Heap;
  copy_other_media_attr : ref → ref → Heap → Heap;
  indexer_should_submit : Heap → ref → bool;
  can_we_scrape : Heap → ref → bool;
  symlinker_should_submit : Heap → ref → bool
}.

(** ** The router: [state_transition.process_event] *)

Definition source_services : list Service :=
  [Overseerr; PlexWatchlist; Listrr; Mdblist; SymlinkLibrary; TraktContent].

(** The arms of the [if]/[elif] chain, in source order.  The guard
    [item.state == States.Downloaded] occurs twice (lines 84 and 106). *)
Inductive Branch :=
  | ToIndexer | ToScraper | PartialToScraper | ToDownloader
  | ToSymlinker | ToSymlinkerAgain | ToUpdater | Finished | NoArm.

Global Instance Branch_eq_dec : EqDecision Branch.
Proof. solve_decision. Defined.

Definition select_branch (emitted_by : Service) (st : States) : Branch :=
  if bool_decide (emitted_by ∈ source_services) || bool_decide (st = Unknown)
  then ToIndexer
  else if bool_decide (emitted_by = TraktIndexer) || bool_decide (st = Indexed)
  then ToScraper
  else if bool_decide (st = PartiallyCompleted) then PartialToScraper
  else if bool_decide (st = Scraped) then ToDownloader
  else if bool_decide (st = Downloaded) then ToSymlinker
  else if bool_decide (st = Downloaded) then ToSymlinkerAgain
  else if bool_decide (st = Symlinked) then ToUpdater
  else if bool_decide (st = Completed) then Finished
  else NoArm.

(** [(updated_item, next_service, items_to_submit)]. *)
Definition ProcessedEvent : Type := option ref * option Service * list ref.

Definition no_further_processing : ProcessedEvent := (None, None, []).

(** Reads every object of a list of references. *)
Definition deref_all (h : Heap) (rs : list ref) : option (list (ref * MediaItem)) :=
  mapM (λ r, o ← h !! r; Some (r, o)) rs.

(** [s.state not in (Completed, Downloaded, Scraped) and can_we_scrape(s)]. *)
Definition wants_scrape `{Collaborators} (h : Heap) (r : ref) : bool :=
  negb (bool_decide (state h r ∈ [Completed; Downloaded; Scraped]))
  && can_we_scrape h r.

(** Lines 44-63: the submissions of the scraper arm for [item]. *)
Definition scrape_expansion `{Collaborators} (h : Heap) (item : ref)
  : option (list ref) :=
  o ← h !! item;
  if can_we_scrape h item then
    match body o with
    | MovieB | EpisodeB _ => Some [item]
    | ShowB seasons => Some (filter (λ s, wants_scrape h s = true) seasons)
    | SeasonB _ episodes =>
        if bool_decide (4 ≤ scraped_times o)
        then Some (filter (λ e, wants_scrape h e = true) episodes)
        else Some [item]
    end
  else Some [].

(** Lines 35-41: the merge of the incoming item into the stored one. *)
Definition merge_into_existing `{Collaborators}
  (h : Heap) (existing_item item : ref) : option Heap :=
  o ← h !! item;
  let h1 := if is_Show o || is_Season o
            then fill_in_missing_children existing_item item h else h in
  let h2 := copy_other_media_attr existing_item item h1 in
  i ← h2 !! item;
  e ← h2 !! existing_item;
  Some (<[existing_item := set_indexed_at (indexed_at i) e]> h2).

(** [not s.symlinked], [s.file and s.folder]. *)
Definition not_symlinked (x : ref * MediaItem) : bool := negb (symlinked x.2).
Definition has_file_and_folder (x : ref * MediaItem) : bool :=
  truthy (file x.2) && truthy (folder x.2).

(** Lines 87-98 for a container: the container itself when every child that
    is not symlinked yet has its file and folder, else the children that
    are ready. *)
Definition symlink_proposal (item : ref) (children : list (ref * MediaItem))
  : list ref :=
  if forallb has_file_and_folder (filter (λ x, not_symlinked x = true) children)
  then [item]
  else (filter (λ x, (not_symlinked x && has_file_and_folder x) = true)
               children).*1.

(** Lines 16-121.  The result carries the store after the call.  [None]
    stands for a call that does not return a result: a store that lacks an
    object the call reads, which no Python run can present, or an attribute
    that the object does not have ([parent] of a stored movie or show).
    The items are of the four classes of the data model, so the [else] of
    lines 62-63 has no counterpart. *)
Definition process_event `{Collaborators}
  (h : Heap) (existing_item : option ref) (emitted_by : Service) (item : ref)
  : option (Heap * ProcessedEvent) :=
  o ← h !! item;
  match select_branch emitted_by (state h item) with
  | ToIndexer =>
      promoted ←
        match body o with
        | SeasonB p _ =>
            match existing_item with
            | Some e => eo ← h !! e; ep ← parent_of eo; Some (p, Some ep)
            | None => Some (p, None)
            end
        | _ => Some (item, existing_item)
        end;
      match promoted.2 with
      | Some e =>
          if negb (indexer_should_submit h e)
          then Some (h, no_further_processing)
          else Some (h, (None, Some TraktIndexer, [promoted.1]))
      | None => Some (h, (None, Some TraktIndexer, [promoted.1]))
      end
  | ToScraper =>
      merged ←
        match existing_item with
        | Some e =>
            eo ← h !! e;
            match indexed_at eo with
            | None => h' ← merge_into_existing h e item; Some (h', e)
            | Some _ => Some (h, item)
            end
        | None => Some (h, item)
        end;
      let '(h', item') := merged in
      match existing_item with
      | Some e =>
          if bool_decide (state h' e = Completed)
          then Some (h', (Some e, None, []))
          else subs ← scrape_expansion h' item';
               Some (h', (Some item', Some Scraping, subs))
      | None =>
          subs ← scrape_expansion h' item';
          Some (h', (Some item', Some Scraping, subs))
      end
  | PartialToScraper =>
      let subs :=
        match body o with
        | ShowB seasons =>
            filter (λ s, (negb (bool_decide
                      (state h s ∈ [Completed; PartiallyCompleted]))
                    && can_we_scrape h s) = true) seasons
        | SeasonB _ episodes =>
            filter (λ e, (bool_decide (state h e = Indexed)
                    && can_we_scrape h e) = true) episodes
        | _ => []
        end in
      Some (h, (Some item, Some Scraping, subs))
  | ToDownloader => Some (h, (Some item, Some Downloader, [item]))
  | ToSymlinker =>
      proposed_submissions ←
        match body o with
        | ShowB seasons => symlink_proposal item <$> deref_all h seasons
        | SeasonB _ episodes => symlink_proposal item <$> deref_all h episodes
        | MovieB | EpisodeB _ => Some [item]
        end;
      Some (h, (Some item, Some Symlinker,
                filter (λ s, symlinker_should_submit h s = true)
                       proposed_submissions))
  | ToSymlinkerAgain =>
      Some (h, (Some item, Some Symlinker,
                if symlinker_should_submit h item then [item] else []))
  | ToUpdater => Some (h, (Some item, Some PlexUpdater, [item]))
  | Finished => Some (h, no_further_processing)
  | NoArm => Some (h, (Some item, None, []))
  end.

(** The condition of lines 35-36 under the guard of line 33: the one place
    where the router writes to an item. *)
Definition merge_pending `{Collaborators}
  (h : Heap) (existing_item : option ref) (emitted_by : Service) (item : ref)
  : bool :=
  bool_decide (select_branch emitted_by (state h item) = ToScraper)
  && match existing_item with
     | Some e =>
         match h !! e with
         | Some eo => bool_decide (indexed_at eo = None)
         | None => false
         end
     | None => false
     end.

(** ** The program: [program.Program] *)

(** A registered service instance; [validate] only reads [initialized]. *)
Record ServiceInstance := mkInstance { initialized : bool }.

(** [program.types.Event]. *)
Record Event := mkEvent { emitted_by : Service; item : ref }.

(** Methods of [program.media.container.MediaItemContainer] that [run]
    calls; the class is not among the sources.  [upsert] may write to the
    stored item, hence the store in and out. *)
Class ItemGraph := {
  Container : Type;
  get : Container → string → option ref;
  upsert : Container → Heap → ref → Container * Heap
}.

Section ProgramDefs.
Context `{Collaborators} `{ItemGraph}.

(** The fields of [Program] that the dispatcher uses.  [store] holds the
    media items, [executor] the calls handed to the thread pool so far,
    oldest first: the service and the item it is run on ([None] for a
    scheduled run without input). *)
Record ProgramState := mkProgram {
  requesting_services : gmap Service ServiceInstance;
  indexing_services : gmap Service ServiceInstance;
  processing_services : gmap Service ServiceInstance;
  library_services : gmap Service ServiceInstance;
  event_queue : list Event;
  media_items : Container;
  store : Heap;
  executor : list (Service * option ref)
}.

Definition set_event_queue (q : list Event) (p : ProgramState) : ProgramState :=
  mkProgram (requesting_services p) (indexing_services p)
            (processing_services p) (library_services p)
            q (media_items p) (store p) (executor p).

Definition set_media (c : Container) (h : Heap) (p : ProgramState)
  : ProgramState :=
  mkProgram (requesting_services p) (indexing_services p)
            (processing_services p) (library_services p)
            (event_queue p) c h (executor p).

Definition set_executor (e : list (Service * option ref)) (p : ProgramState)
  : ProgramState :=
  mkProgram (requesting_services p) (indexing_services p)
            (processing_services p) (library_services p)
            (event_queue p) (media_items p) (store p) e.

(** [d.values()]. *)
Definition values (d : gmap Service ServiceInstance) : list ServiceInstance :=
  (map_to_list d).*2.

(** [self.services], built by [initialize_services]: later groups override
    earlier ones. *)
Definition services (p : ProgramState) : gmap Service ServiceInstance :=
  processing_services p ∪ requesting_services p ∪ indexing_services p
  ∪ library_services p.

(** Lines 80-89. *)
Definition validate (p : ProgramState) : bool :=
  forallb id
    [ existsb initialized (values (requesting_services p));
      existsb initialized (values (library_services p));
      existsb initialized (values (indexing_services p));
      forallb initialized (values (processing_services p)) ].

(** Lines 194-202: [self.services[service]] raises for an unregistered
    key, [None] included; otherwise the call goes to the pool. *)
Definition _submit_job (service : option Service) (it : option ref)
  (p : ProgramState) : option ProgramState :=
  s ← service;
  _ ← services p !! s;
  Some (set_executor (executor p ++ [(s, it)]) p).

(** Lines 226-231. *)
Fixpoint submit_items (next_service : option Service)
  (items_to_submit : list ref) (p : ProgramState) : option ProgramState :=
  match items_to_submit with
  | [] => Some p
  | item_to_submit :: rest =>
      o ← store p !! item_to_submit;
      if is_Season o && bool_decide (next_service = Some Scraping)
         && bool_decide (3 ≤ scraped_times o)
      then submit_items next_service rest p
      else p' ← _submit_job next_service (Some item_to_submit) p;
           submit_items next_service rest p'
  end.

(** Lines 205-231: one turn of the [while] loop.  An invalid registry or
    an empty queue leaves everything as it is. *)
Definition run_iteration (p : ProgramState) : option ProgramState :=
  if negb (validate p) then Some p
  else match event_queue p with
  | [] => Some p
  | event :: q =>
      o ← store p !! item event;
      let existing_item := get (media_items p) (item_id o) in
      r ← process_event (store p) existing_item (emitted_by event) (item event);
      let '(h, (updated_item, next_service, items_to_submit)) := r in
      let p1 := set_media (media_items p) h (set_event_queue q p) in
      let p2 := match updated_item with
                | Some u =>
                    let '(c, h') := upsert (media_items p1) (store p1) u in
                    set_media c h' p1
                | None => p1
                end in
      submit_items next_service items_to_submit p2
  end.

(** So many turns of the loop of [run], one after the other, with no worker
    of the pool finishing in between. *)
Fixpoint run (turns : nat) (p : ProgramState) : option ProgramState :=
  match turns with
  | O => Some p
  | S n => p' ← run_iteration p; run n p'
  end.

(** What a service call hands back to the callback.  [future.result()] is
    iterated inside the callback, and a lazy [run] executes there: the
    values it yields, in order; how the iteration then ends: it is
    exhausted, or it raises an instance of [Exception], or it raises
    something that is a [BaseException] only ([SystemExit],
    [KeyboardInterrupt]); and what the run writes to the items while it is
    iterated (nothing for a run that completed in the pool).  A call that
    raises before yielding anything has no yields. *)
Inductive Yield := YieldItem (r : ref) | YieldOther.
Inductive Ending := Exhausted | RaisesException | RaisesBaseException.
Record FutureResult := mkFuture {
  yields : list Yield;
  ending : Ending;
  writes : Heap → Heap
}.

(** How the callback itself ends: it returns, or an exception leaves it. *)
Inductive Outcome := Returns | Propagates.

(** Lines 186-190, the body of the [try]: one event per media item. *)
Fixpoint enqueue_yields (service : Service) (ys : list Yield)
  (q : list Event) : list Event :=
  match ys with
  | [] => q
  | YieldItem r :: rest => enqueue_yields service rest (q ++ [mkEvent service r])
  | YieldOther :: rest => enqueue_yields service rest q
  end.

(** Lines 183-192: how the callback ends, and the program after it.  The
    only handler is [except Exception], which logs; it does not catch what
    is a [BaseException] only.  The callback has no statement that writes
    to an item: the store changes by the writes of the run alone. *)
Definition _process_future_item (future : FutureResult) (service : Service)
  (p : ProgramState) : Outcome * ProgramState :=
  let p' := set_media (media_items p) (writes future (store p))
              (set_event_queue
                 (enqueue_yields service (yields future) (event_queue p)) p) in
  match ending future with
  | Exhausted => (Returns, p')
  | RaisesException => (Returns, p')
  | RaisesBaseException => (Propagates, p')
  end.
(** The submissions that the guard of lines 228-230 skips: a season, bound
    for the scraper, scraped three times or more. *)
Definition season_cutoff (h : Heap) (next_service : Service) (r : ref) : bool :=
  match h !! r with
  | Some o => is_Season o && bool_decide (next_service = Scraping)
              && bool_decide (3 ≤ scraped_times o)
  | None => false
  end.

(** The events that a sequence of yields gives rise to. *)
Definition events_of (service : Service) (ys : list Yield) : list Event :=
  omap (λ y, match y with
             | YieldItem r => Some (mkEvent service r)
             | YieldOther => None
             end) ys.
(** Lines 43-78, [initialize_services]: the four groups with the classes
    they hold.  [init] tells, for each class, whether its constructor left
    the instance initialized. *)
Definition instances (init : Service → bool) (ks : list Service)
  : gmap Service ServiceInstance :=
  list_to_map ((λ k, (k, mkInstance (init k))) <$> ks).

Definition initialize_services (init : Service → bool) (p : ProgramState)
  : ProgramState :=
  mkProgram
    (instances init [Overseerr; PlexWatchlist; Listrr; Mdblist; TraktContent])
    (instances init [TraktIndexer])
    (instances init [Scraping; Symlinker; PlexUpdater; Downloader])
    (instances init [SymlinkLibrary; PlexLibrary])
    (event_queue p) (media_items p) (store p) (executor p).

(** Lines 138-142, [_retry_library], given the items that
    [get_incomplete_items] of the container returns. *)
Definition _retry_library (incomplete : list ref) (p : ProgramState)
  : ProgramState :=
  foldl (λ p' r, set_event_queue (event_queue p' ++ [mkEvent Program r]) p')
        p incomplete.

(** Lines 244-252, [add_to_queue], for a value that is a media item of one
    of the four classes or something else. *)
Definition add_to_queue (x : Yield) (p : ProgramState) : bool * ProgramState :=
  match x with
  | YieldItem r =>
      (true, set_event_queue (event_queue p ++ [mkEvent Program r]) p)
  | YieldOther => (false, p)
  end.

(** Lines 254-263, [clear_queue]: events are taken off the queue one by one
    until it is empty. *)
Fixpoint drain (q : list Event) : list Event :=
  match q with
  | [] => []
  | _ :: rest => drain rest
  end.

Definition clear_queue (p : ProgramState) : ProgramState :=
  set_event_queue (drain (event_queue p)) p.
(** The part of the program that the loop never writes. *)
Definition same_registry (p p' : ProgramState) : Prop :=
  requesting_services p' = requesting_services p
  ∧ indexing_services p' = indexing_services p
  ∧ processing_services p' = processing_services p
  ∧ library_services p' = library_services p.
End ProgramDefs.

(** ** Reference implementations of the missing collaborators

    Used to run the router and the dispatcher on concrete items. *)

(** Modelled from the spec: the library marks an item it knows by the
    sentinel that [update_folder] holds (section 3; [plex.py] compares it
    with ["updated"]). *)
Definition known_to_library (o : MediaItem) : bool :=
  bool_decide (update_folder o = Some "updated").

(** Modelled from the spec: the leaf classification of section 4.2, for the
    [state] property of [Movie] and [Episode]. *)
Definition leaf_state (o : MediaItem) : States :=
  if symlinked o then (if known_to_library o then Completed else Symlinked)
  else if truthy (file o) && truthy (folder o) then Downloaded
  else if bool_decide (is_Some (active_stream o)) then Scraped
  else if bool_decide (is_Some (indexed_at o)) then Indexed
  else Unknown.

(** Modelled from the spec: the container classification of section 4.2,
    for the [state] property of [Season] and [Show], from the states of the
    children, rules tried in the order of the text. *)
Definition container_state (has_indexed_at : bool) (cs : list States) : States :=
  match cs with
  | [] => if has_indexed_at then Indexed else Unknown
  | _ =>
      if forallb (λ c, bool_decide (c = Completed)) cs then Completed
      else if forallb (λ c, bool_decide
                 (c ∈ [Completed; Downloaded; Scraped; Symlinked])) cs
      then (if existsb (λ c, bool_decide (c = Scraped)) cs then Scraped
            else if existsb (λ c, bool_decide (c = Downloaded)) cs
            then Downloaded else Symlinked)
      else if existsb (λ c, bool_decide (c = Completed)) cs
      then PartiallyCompleted
      else if forallb (λ c, bool_decide (c = Indexed)) cs then Indexed
      else Unknown
  end.

Definition set_children (cs : list ref) (o : MediaItem) : MediaItem :=
  mkItem (item_id o) (imdb_id o) (title o) (number o) (indexed_at o)
         (scraped_times o) (active_stream o) (file o) (folder o)
         (symlinked o) (update_folder o)
         match body o with
         | ShowB _ => ShowB cs
         | SeasonB p _ => SeasonB p cs
         | b => b
         end.

Definition season_state (h : Heap) (o : MediaItem) : States :=
  container_state (bool_decide (is_Some (indexed_at o)))
    (omap (λ e, leaf_state <$> h !! e) (children_of o)).

Definition show_state (h : Heap) (o : MediaItem) : States :=
  container_state (bool_decide (is_Some (indexed_at o)))
    (omap (λ s, season_state h <$> h !! s) (children_of o)).

Definition spec_state (h : Heap) (r : ref) : States :=
  match h !! r with
  | Some o =>
      match body o with
      | MovieB | EpisodeB _ => leaf_state o
      | SeasonB _ _ => season_state h o
      | ShowB _ => show_state h o
      end
  | None => Unknown
  end.

(** Modelled from the spec: [fill_in_missing_children] ("fill missing
    children", keyed by number): the children of [other] whose number
    [self] lacks are appended to the children of [self]. *)
Definition spec_fill_in_missing_children (self other : ref) (h : Heap) : Heap :=
  match h !! self, h !! other with
  | Some s, Some o =>
      let have := omap (λ c, number <$> h !! c) (children_of s) in
      let missing :=
        filter (λ c, (match h !! c with
                      | Some co => negb (bool_decide (number co ∈ have))
                      | None => false
                      end) = true) (children_of o) in
      <[self := set_children (children_of s ++ missing) s]> h
  | _, _ => h
  end.

(** Modelled from the spec: [copy_other_media_attr] ("copy non-structural
    attrs"): the descriptive fields of [other] overwrite those of [self];
    identity, links and progress stay. *)
Definition spec_copy_other_media_attr (self other : ref) (h : Heap) : Heap :=
  match h !! self, h !! other with
  | Some s, Some o =>
      <[self := mkItem (item_id s) (imdb_id o) (title o) (number s)
                  (indexed_at s) (scraped_times s) (active_stream s)
                  (file s) (folder s) (symlinked s) (update_folder s)
                  (body s)]> h
  | _, _ => h
  end.

(** Modelled from the spec: the indexer resubmits an item unless it is
    "already freshly indexed": indexed no longer than [interval] before
    [now]. *)
Definition spec_indexer_should_submit (now interval : Z) (h : Heap) (r : ref)
  : bool :=
  match h !! r with
  | Some o =>
      match indexed_at o with
      | Some t => bool_decide (interval < now - t)
      | None => true
      end
  | None => true
  end.

(** Modelled from the spec: the capability probes of the scraper and the
    symlinker are not described beyond their type; here each refuses the
    items of a given list. *)
Definition spec_refuses (refused : list ref) (h : Heap) (r : ref) : bool :=
  negb (bool_decide (r ∈ refused)).

Definition spec_collaborators (now interval : Z)
  (no_scrape no_symlink : list ref) : Collaborators :=
  {| state := spec_state;
     fill_in_missing_children := spec_fill_in_missing_children;
     copy_other_media_attr := spec_copy_other_media_attr;
     indexer_should_submit := spec_indexer_should_submit now interval;
     can_we_scrape := spec_refuses no_scrape;
     symlinker_should_submit := spec_refuses no_symlink |}.

(** Modelled from the spec: field-by-field merge of section 4.1, "preferring
    non-null incoming values". *)
Definition merge_fields (stored incoming : MediaItem) : MediaItem :=
  mkItem (item_id stored)
         (imdb_id incoming ∪ imdb_id stored)
         (title incoming ∪ title stored)
         (number incoming)
         (indexed_at incoming ∪ indexed_at stored)
         (scraped_times incoming)
         (active_stream incoming ∪ active_stream stored)
         (file incoming ∪ file stored)
         (folder incoming ∪ folder stored)
         (symlinked incoming)
         (update_folder incoming ∪ update_folder stored)
         (body stored).

(** Modelled from the spec: [upsert] of section 4.1 for one item: insert
    under an unknown [item_id], else merge into the stored object. *)
Definition upsert_one (g : gmap string ref * Heap) (r : ref)
  : gmap string ref * Heap :=
  match g.2 !! r with
  | Some o =>
      match g.1 !! item_id o with
      | None => (<[item_id o := r]> g.1, g.2)
      | Some r0 =>
          match g.2 !! r0 with
          | Some s => (g.1, <[r0 := merge_fields s o]> g.2)
          | None => g
          end
      end
  | None => g
  end.

(** Modelled from the spec: "recursively upserting children": an item, then
    its children, then theirs. *)
Definition upsert_children (g : gmap string ref * Heap) (rs : list ref)
  : gmap string ref * Heap :=
  foldl upsert_one g rs.

Definition spec_upsert (c : gmap string ref) (h : Heap) (r : ref)
  : gmap string ref * Heap :=
  let g1 := upsert_one (c, h) r in
  let level1 := default [] (children_of <$> h !! r) in
  let g2 := upsert_children g1 level1 in
  let level2 := mjoin (omap (λ x, children_of <$> h !! x) level1) in
  upsert_children g2 level2.

(** Modelled from the spec: the item graph of section 4.1, a map from
    [item_id] to the stored object. *)
Definition spec_graph : ItemGraph :=
  {| Container := gmap string ref;
     get := λ c id, c !! id;
     upsert := spec_upsert |}.

(** ** Python dictionaries with string keys

    A [dict] keeps its keys in the order of their first insertion;
    assigning to a key that is present replaces the value in place. *)

Fixpoint dict_set {V} (k : string) (v : V) (d : list (string * V))
  : list (string * V) :=
  match d with
  | [] => [(k, v)]
  | (k', v') :: rest =>
      if String.eqb k' k then (k, v) :: rest
      else (k', v') :: dict_set k v rest
  end.

Fixpoint dict_get {V} (k : string) (d : list (string * V)) : option V :=
  match d with
  | [] => None
  | (k', v') :: rest => if String.eqb k' k then Some v' else dict_get k rest
  end.

(** [s[n:]]. *)
Fixpoint string_drop (n : nat) (s : string) : string :=
  match n, s with
  | O, _ => s
  | S n', String _ rest => string_drop n' rest
  | S _, EmptyString => EmptyString
  end.

(** [sep.join(parts)]. *)
Fixpoint join (sep : string) (parts : list string) : string :=
  match parts with
  | [] => ""
  | [x] => x
  | x :: rest => x +:+ sep +:+ join sep rest
  end.

(** ** The Orionoid scraper: [scrapers/orionoid.py] *)

Module Orionoid.

Definition KEY_APP : string := "D3CH6HMX9KD9EMD68RXRCDUNBDJV5HRR".

(** The settings that the class reads.  [timeout] and [ratelimit] are
    [None] when the configured value is not an [int], respectively not a
    [bool]. *)
Record Settings := mkSettings {
  enabled : bool;
  api_key : string;
  timeout : option Z;
  ratelimit : option bool;
  limitcount : Z
}.

Record Orionoid := mkOrionoid {
  settings : Settings;
  is_premium : bool;
  is_unlimited : bool;
  initialized : bool
}.

(** What [utils.request.get] gives: it raises, or returns a response with
    its [is_ok] flag and its [data]. *)
Inductive Reply (A : Type) :=
  | Raises
  | Response (is_ok : bool) (data : A).
Arguments Raises {A}.
Arguments Response {A} is_ok data.

(** The answer to [mode=user&action=retrieve]: [data.result.status], when
    [data] has a [result], and the account under [data.data], when that
    chain of attributes is there; the code reads [status],
    [subscription.package.type], [subscription.package.premium] and
    [service.realdebrid] from it. *)
Record Account := mkAccount {
  status : string;
  package_type : string;
  package_premium : bool;
  service_realdebrid : bool
}.

Record UserData := mkUserData {
  result_status : option string;
  account : option Account
}.

(** A stream of the answer to [mode=stream]: [file.hash] and [file.name]. *)
Record Stream := mkStream {
  file_hash : option string;
  file_name : option string
}.

(** Lines 34-68.  The result and the instance afterwards
    ([is_unlimited] may have been set). *)
Definition validate (o : Orionoid) (response : Reply UserData)
  : bool * Orionoid :=
  if negb (enabled (settings o)) then (false, o)
  else if negb (String.length (api_key (settings o)) =? 32)%nat
          || String.eqb (api_key (settings o)) ""
  then (false, o)
  else match timeout (settings o) with
  | None => (false, o)
  | Some t =>
      if t <=? 0 then (false, o)
      else match ratelimit (settings o) with
      | None => (false, o)
      | Some _ =>
          match response with
          | Raises => (false, o)
          | Response is_ok data =>
              match (if is_ok then result_status data else None) with
              | Some st =>
                  if negb (String.eqb st "success") then (false, o)
                  else if negb is_ok then (false, o)
                  else match account data with
                  | None => (false, o)
                  | Some a =>
                      if String.eqb (package_type a) "unlimited"
                      then (true, mkOrionoid (settings o) (is_premium o)
                                     true (initialized o))
                      else (true, o)
                  end
              | None => (true, o)
              end
          end
      end
  end.

(** Lines 70-80; [None] when [get] raises, which nothing here catches. *)
Definition check_premium (response : Reply UserData) : option bool :=
  match response with
  | Raises => None
  | Response is_ok data =>
      match (if is_ok then account data else None) with
      | Some a =>
          Some (String.eqb (status a) "active" && package_premium a
                && service_realdebrid a)
      | None => Some false
      end
  end.

(** Lines 18-32, the constructor, given the answers to the two requests
    that it makes; [None] when it raises. *)
Definition __init__ (s : Settings) (r_validate r_premium : Reply UserData)
  : option Orionoid :=
  let o := mkOrionoid s false false false in
  let '(ok, o1) := validate o r_validate in
  if ok then
    premium ← check_premium r_premium;
    Some (mkOrionoid (settings o1) premium (is_unlimited o1) true)
  else Some o1.

(** The value of a query parameter and its text in an f-string. *)
Inductive Value := VStr (s : string) | VInt (z : Z) | VNone.

Definition str (v : Value) : string :=
  match v with
  | VStr s => s
  | VInt z => pretty z
  | VNone => "None"
  end.

Definition of_int (z : option Z) : Value :=
  match z with
  | Some z => VInt z
  | None => VNone
  end.

(** Lines 120-145: the dictionary [params]. *)
Definition construct_params (o : Orionoid) (media_type imdb_id : string)
  (season episode : option Z) : list (string * Value) :=
  let lc := limitcount (settings o) in
  let params :=
    [ ("keyapp", VStr KEY_APP);
      ("keyuser", VStr (api_key (settings o)));
      ("mode", VStr "stream");
      ("action", VStr "retrieve");
      ("type", VStr media_type);
      ("idimdb", VStr (string_drop 2 imdb_id));
      ("streamtype", VStr "torrent");
      ("filename", VStr "true");
      ("limitcount", VInt (if lc =? 0 then 5 else lc));
      ("video3d", VStr "false");
      ("sortorder", VStr "descending");
      ("sortvalue", VStr (if is_premium o then "best" else "popularity")) ] in
  let params := if is_unlimited o
                then dict_set "debridlookup" (VStr "realdebrid") params
                else params in
  let params := if 200 <? lc
                then dict_set "limitcount" (VInt 200) params
                else params in
  if String.eqb media_type "show"
  then dict_set "numberepisode"
         (match episode with
          | Some e => if e =? 0 then VInt 1 else VInt e
          | None => VInt 1
          end)
         (dict_set "numberseason" (of_int season) params)
  else params.

(** Lines 118-147.  An [imdb_id] that is [None] cannot be sliced: the call
    raises. *)
Definition construct_url (o : Orionoid) (media_type : string)
  (imdb_id : option string) (season episode : option Z) : option string :=
  id ← imdb_id;
  Some ("https://api.orionoid.com" +:+ "?" +:+
        join "&" ((λ kv, kv.1 +:+ "=" +:+ str kv.2) <$>
                  construct_params o media_type id season episode)).

(** Lines 171-178: the dictionary from hash to name. *)
Fixpoint collect_torrents (streams : list Stream)
  (torrents : list (string * string)) : list (string * string) :=
  match streams with
  | [] => torrents
  | stream :: rest =>
      match file_hash stream, file_name stream with
      | Some hash, Some name =>
          if negb (truthy (Some hash)) || negb (truthy (Some name))
          then collect_torrents rest torrents
          else collect_torrents rest (dict_set hash name torrents)
      | _, _ => collect_torrents rest torrents
      end
  end.

(** Lines 149-180.  [get] is the web: the reply to each URL, whose [data]
    is the list under [data.data.streams] or [None] without [data.data].
    [None] when the call raises. *)
Definition api_scrape (o : Orionoid) (h : Heap) (item : ref)
  (get : string → Reply (option (list Stream)))
  : option (list (string * string) * nat) :=
  it ← h !! item;
  url ←
    match body it with
    | SeasonB show _ =>
        sh ← h !! show;
        construct_url o "show" (imdb_id sh) (Some (number it)) None
    | EpisodeB season =>
        se ← h !! season;
        show ← parent_of se;
        sh ← h !! show;
        construct_url o "show" (imdb_id sh) (Some (number se))
                      (Some (number it))
    | _ => construct_url o "movie" (imdb_id it) None None
    end;
  match get url with
  | Raises => None
  | Response is_ok data =>
      match (if is_ok then data else None) with
      | Some streams => Some (collect_torrents streams [], length streams)
      | None => Some ([], 0%nat)
      end
  end.

(** Lines 104-116. *)
Definition scrape (o : Orionoid) (h : Heap) (item : ref)
  (get : string → Reply (option (list Stream)))
  : option (list (string * string)) :=
  fst <$> api_scrape o h item get.

(** Lines 82-102: nothing for no item or a show; every exception of the
    scrape ends in the empty dictionary. *)
Definition run (o : Orionoid) (h : Heap) (item : option ref)
  (get : string → Reply (option (list Stream))) : list (string * string) :=
  match item with
  | None => []
  | Some r =>
      match is_Show <$> h !! r with
      | Some true => []
      | _ => default [] (scrape o h r get)
      end
  end.

(** The settings that pass the checks made before any request. *)
Definition locally_valid (s : Settings) : Prop :=
  enabled s = true
  ∧ String.length (api_key s) = 32%nat
  ∧ (∃ t, timeout s = Some t ∧ 0 < t)
  ∧ is_Some (ratelimit s).

(** A stream that the loop of [api_scrape] keeps: hash and name are there
    and not empty. *)
Definition usable (stream : Stream) : Prop :=
  ∃ hash name, file_hash stream = Some hash ∧ file_name stream = Some name
               ∧ hash ≠ "" ∧ name ≠ "".

End Orionoid.

(** ** Scraped torrents: [versions/parser.py] *)

Module Parser.
Section Torrents.

(** [ParsedMediaItem], filled in by the PTN library; nothing below reads
    it. *)
Variable ParsedMediaItem : Type.

(** Lines 74-79. *)
Record Torrent := mkTorrent {
  raw_title : string;
  infohash : string;
  parsed_data : option ParsedMediaItem;
  rank : Z
}.

(** Lines 102-104: the dictionary [torrents] of [ParsedTorrents]. *)
Definition ParsedTorrents : Type := list (string * Torrent).

(** Lines 106-110. *)
Definition __iter__ (d : ParsedTorrents) : list Torrent := d.*2.
Definition __len__ (d : ParsedTorrents) : nat := length d.

(** Lines 112-114. *)
Definition add (torrent : Torrent) (d : ParsedTorrents) : ParsedTorrents :=
  dict_set (infohash torrent) torrent d.

(** [sorted(..., key=lambda x: x.rank, reverse=True)].  Python's sort is
    stable, in reverse too: the result has descending ranks and keeps
    torrents of equal rank in their original order, which determines it. *)
Fixpoint insert_by_rank (t : Torrent) (l : list Torrent) : list Torrent :=
  match l with
  | [] => [t]
  | x :: rest =>
      if rank x <=? rank t then t :: x :: rest
      else x :: insert_by_rank t rest
  end.

Definition sorted_by_rank (l : list Torrent) : list Torrent :=
  foldr insert_by_rank [] l.

(** Lines 116-119: the dictionary is built anew from the sorted values. *)
Definition sort (d : ParsedTorrents) : ParsedTorrents :=
  foldl (λ acc torrent, dict_set (infohash torrent) torrent acc) []
        (sorted_by_rank (__iter__ d)).

(** What [add] keeps true of a dictionary that starts empty: every
    torrent is stored under its own [infohash]. *)
Definition keyed_by_infohash (d : ParsedTorrents) : Prop :=
  NoDup d.*1 ∧ ∀ k t, (k, t) ∈ d → k = infohash t.

End Torrents.
End Parser.

(** ** The Plex library: [plex.py] *)

Module Plex.

(** A library section of the server: [section.type] and [section.title]. *)
Record LibrarySection := mkSection {
  section_type : string;
  section_title : string
}.

(** [item.type]. *)
Definition item_type (o : MediaItem) : string :=
  match body o with
  | MovieB => "movie"
  | ShowB _ => "show"
  | SeasonB _ _ => "season"
  | EpisodeB _ => "episode"
  end.

Definition set_update_folder (v : option string) (o : MediaItem) : MediaItem :=
  mkItem (item_id o) (imdb_id o) (title o) (number o) (indexed_at o)
         (scraped_times o) (active_stream o) (file o) (folder o)
         (symlinked o) v (body o).

Section WithState.

(** The [state] property of the item; the state that [plex.py] imports as
    [Symlink] is [Symlinked] here. *)
Variable state_of : MediaItem → States.

(** Lines 135-141.  The result, the item afterwards, and the calls
    [section.update(folder)] made. *)
Definition _update_section (section : LibrarySection) (item : MediaItem)
  : bool * MediaItem * list (LibrarySection * option string) :=
  if bool_decide (state_of item = Symlinked)
     && negb (bool_decide (update_folder item = Some "updated"))
  then (true, set_update_folder (Some "updated") item,
        [(section, update_folder item)])
  else (false, item, []).

(** Lines 121-133, over the sections of the server. *)
Fixpoint update_sections (wanted : string) (sections : list LibrarySection)
  (item : MediaItem) : MediaItem * list (LibrarySection * option string) :=
  match sections with
  | [] => (item, [])
  | section :: rest =>
      if negb (String.eqb (section_type section) wanted)
      then update_sections wanted rest item
      else let '(_, item', calls) := _update_section section item in
           let '(item'', calls') := update_sections wanted rest item' in
           (item'', calls ++ calls')
  end.

Definition update_item_section (sections : list LibrarySection)
  (item : MediaItem) : MediaItem * list (LibrarySection * option string) :=
  let wanted := if String.eqb (item_type item) "episode" then "show"
                else item_type item in
  update_sections wanted sections item.

End WithState.
End Plex.

(** ** A small library to run the code on *)

(** A scraped movie, a completed movie and the object a content service
    emits for it again, a movie seen twice by the indexer, a movie that was
    stored before it was indexed, and one show with one season of one
    episode and a second, still empty season that was scraped three times. *)
Definition movie_scraped : MediaItem :=
  mkItem "m1" (Some "tt1") (Some "One") 0 (Some 100) 1 (Some "hash")
         None None false None MovieB.
Definition movie_completed : MediaItem :=
  mkItem "m2" (Some "tt2") (Some "Two") 0 (Some 100) 1 (Some "hash")
         (Some "two.mkv") (Some "Two (2020)") true (Some "updated") MovieB.
Definition movie_requested : MediaItem :=
  mkItem "m2" (Some "tt2") None 0 None 0 None None None false None MovieB.
Definition movie_indexed_again : MediaItem :=
  mkItem "m1" (Some "tt1") (Some "One, again") 0 (Some 900) 0 None
         None None false None MovieB.
Definition movie_stored_bare : MediaItem :=
  mkItem "m5" (Some "tt5") None 0 None 0 None None None false None MovieB.
Definition movie_fresh_metadata : MediaItem :=
  mkItem "m5" (Some "tt5") (Some "Five") 0 (Some 900) 0 None
         None None false None MovieB.
Definition show_indexed : MediaItem :=
  mkItem "sh" (Some "tt9") (Some "Show") 0 (Some 100) 0 None
         None None false None (ShowB [11%positive; 13%positive]).
Definition season_indexed : MediaItem :=
  mkItem "sh-s1" None (Some "Season 1") 1 (Some 100) 0 None
         None None false None (SeasonB 10%positive [12%positive]).
Definition season_scraped_thrice : MediaItem :=
  mkItem "sh-s2" None (Some "Season 2") 2 (Some 100) 3 None
         None None false None (SeasonB 10%positive []).
Definition episode_indexed : MediaItem :=
  mkItem "sh-s1e1" None (Some "Episode 1") 1 (Some 100) 0 None
         None None false None (EpisodeB 11%positive).

Definition library : Heap :=
  list_to_map
    [ (1%positive, movie_scraped); (2%positive, movie_completed);
      (3%positive, movie_requested); (4%positive, movie_indexed_again);
      (5%positive, movie_stored_bare); (6%positive, movie_fresh_metadata);
      (10%positive, show_indexed); (11%positive, season_indexed);
      (12%positive, episode_indexed); (13%positive, season_scraped_thrice) ].

(** The clock reads 1000 and the indexer refreshes after 3600: everything
    indexed at 100 or later is fresh.  Every item may be scraped and
    symlinked. *)
Definition env : Collaborators := spec_collaborators 1000 3600 [] [].

(** The same, with a scraper that refuses the season. *)
Definition env_season_refused : Collaborators :=
  spec_collaborators 1000 3600 [11%positive] [].

(** A registry in which every service is initialized. *)
Definition all_initialized (ks : list Service) : gmap Service ServiceInstance :=
  list_to_map ((λ k, (k, mkInstance true)) <$> ks).

(** The program with the library stored, idle. *)
Definition idle_program : @ProgramState spec_graph :=
  mkProgram
    (all_initialized [Overseerr; PlexWatchlist; Listrr; Mdblist; TraktContent])
    (all_initialized [TraktIndexer])
    (all_initialized [Scraping; Symlinker; PlexUpdater; Downloader])
    (all_initialized [SymlinkLibrary; PlexLibrary])
    []
    (list_to_map [("m1", 1%positive); ("m2", 2%positive);
                  ("m5", 5%positive); ("sh", 10%positive);
                  ("sh-s1", 11%positive); ("sh-s1e1", 12%positive);
                  ("sh-s2", 13%positive)])
    library
    [].

(** The same program after the stored season was queued four times by the
    dispatcher itself (the retry sweep, or [add_to_queue]), before any
    worker ran. *)
Definition season_queued_four_times : @ProgramState spec_graph :=
  @set_event_queue spec_graph
    (replicate 4 (mkEvent Program 11%positive)) idle_program.

(** The library after the indexer's fresh metadata for the bare movie was
    merged into the stored object. *)
Definition library_after_merge : Heap :=
  <[5%positive :=
      mkItem "m5" (Some "tt5") (Some "Five") 0 (Some 900) 0 None
             None None false None MovieB]> library.

(** The clock reads 10000: everything indexed at 100 is stale. *)
Definition env_later : Collaborators := spec_collaborators 10000 3600 [] [].

(** A service call that yields the scraped movie and then raises, and one
    that is stopped by [SystemExit] at once; neither writes to an item. *)
Definition yields_then_raises : FutureResult :=
  mkFuture [YieldItem 1%positive] RaisesException id.
Definition stopped_by_system_exit : FutureResult :=
  mkFuture [] RaisesBaseException id.

(** A service call that counts the scrape of the first season and then
    raises. *)
Definition counts_then_raises : FutureResult :=
  mkFuture [] RaisesException
    (alter (λ o, mkItem (item_id o) (imdb_id o) (title o) (number o)
                   (indexed_at o) (scraped_times o + 1) (active_stream o)
                   (file o) (folder o) (symlinked o) (update_folder o)
                   (body o)) 11%positive).

(** A second library: a downloaded movie, and a season of a show whose
    first episode is downloaded and whose second is in the library
    already. *)
Definition movie_downloaded : MediaItem :=
  mkItem "m7" (Some "tt7") (Some "Seven") 0 (Some 100) 1 (Some "hash")
         (Some "seven.mkv") (Some "Seven (2021)") false None MovieB.
Definition show_downloading : MediaItem :=
  mkItem "sd" (Some "tt8") (Some "Eight") 0 (Some 100) 0 None
         None None false None (ShowB [21%positive]).
Definition season_downloaded : MediaItem :=
  mkItem "sd-s1" None (Some "Season 1") 1 (Some 100) 1 None
         None None false None
         (SeasonB 20%positive [22%positive; 23%positive]).
Definition episode_downloaded : MediaItem :=
  mkItem "sd-s1e1" None (Some "Episode 1") 1 (Some 100) 1 (Some "hash")
         (Some "e1.mkv") (Some "Eight S01") false None
         (EpisodeB 21%positive).
Definition episode_completed : MediaItem :=
  mkItem "sd-s1e2" None (Some "Episode 2") 2 (Some 100) 1 (Some "hash")
         (Some "e2.mkv") (Some "Eight S01") true (Some "updated")
         (EpisodeB 21%positive).

Definition downloads : Heap :=
  list_to_map
    [ (7%positive, movie_downloaded); (20%positive, show_downloading);
      (21%positive, season_downloaded); (22%positive, episode_downloaded);
      (23%positive, episode_completed) ].

(** The idle program with the completed movie queued by the dispatcher. *)
Definition completed_queued : @ProgramState spec_graph :=
  @set_event_queue spec_graph [mkEvent Program 2%positive] idle_program.

(** Three scraped torrents, the first and the last of equal rank. *)
Definition torrent_a : Parser.Torrent unit :=
  Parser.mkTorrent unit "Show.S01.720p" "aaaa" None 10.
Definition torrent_b : Parser.Torrent unit :=
  Parser.mkTorrent unit "Show.S01.1080p" "bbbb" None 50.
Definition torrent_c : Parser.Torrent unit :=
  Parser.mkTorrent unit "Show.S01.HDTV" "cccc" None 10.
Definition scraped_torrents : Parser.ParsedTorrents unit :=
  Parser.add unit torrent_c
    (Parser.add unit torrent_b (Parser.add unit torrent_a [])).

(** An enabled Orionoid scraper with a key of 32 characters that asks for
    500 results, and the answers of the server to the key check. *)
Definition orionoid_settings : Orionoid.Settings :=
  Orionoid.mkSettings true "0123456789ABCDEF0123456789ABCDEF" (Some 10)
                      (Some false) 500.
Definition orionoid : Orionoid.Orionoid :=
  Orionoid.mkOrionoid orionoid_settings true false true.
Definition account_unlimited : Orionoid.Account :=
  Orionoid.mkAccount "active" "unlimited" true true.
Definition reply_success : Orionoid.Reply Orionoid.UserData :=
  Orionoid.Response true
    (Orionoid.mkUserData (Some "success") (Some account_unlimited)).
Definition reply_server_error : Orionoid.Reply Orionoid.UserData :=
  Orionoid.Response false (Orionoid.mkUserData None None).

(** Streams of an answer: two names for one hash, and a stream without a
    hash. *)
Definition streams_found : list Orionoid.Stream :=
  [ Orionoid.mkStream (Some "h1") (Some "first.mkv");
    Orionoid.mkStream None (Some "nameless.mkv");
    Orionoid.mkStream (Some "h1") (Some "second.mkv") ].

(** A server with a show section and two movie sections, and the
    symlinked movie whose folder is to be refreshed. *)
Definition plex_sections : list Plex.LibrarySection :=
  [ Plex.mkSection "show" "TV"; Plex.mkSection "movie" "Films";
    Plex.mkSection "movie" "More films" ].
Definition movie_symlinked : MediaItem :=
  mkItem "m8" (Some "tt8") (Some "Eight") 0 (Some 100) 1 (Some "hash")
         (Some "eight.mkv") (Some "Eight (2022)") true
         (Some "/library/movies/Eight (2022)") MovieB.

(** * Properties of the router *)

Section RouterProperties.
Context `{Collaborators}.

Lemma select_branch_cases (emitted_by : Service) (st : States) :
  select_branch emitted_by st ∈
    [ToIndexer; ToScraper; PartialToScraper; ToDownloader; ToSymlinker;
     ToUpdater; Finished].
Proof.
  unfold select_branch.
  repeat (case_match; [set_solver |]).
  repeat match goal with
         | H : _ || _ = false |- _ => apply orb_false_elim in H as [? ?]
         | H : bool_decide _ = false |- _ => apply bool_decide_eq_false in H
         end.
  by destruct st.
Qed.

(** C9. The arm guarded by the second [item.state == States.Downloaded]
    (line 106) is never taken: whatever the emitter and the state of the
    incoming item, the chain stops at an earlier arm, and a downloaded item
    that reaches the two guards takes the first (line 84). *)
Theorem second_downloaded_arm_unreachable (emitted_by : Service) (st : States) :
  select_branch emitted_by st ≠ ToSymlinkerAgain
  ∧ (emitted_by ∉ source_services → emitted_by ≠ TraktIndexer →
     st = Downloaded → select_branch emitted_by st = ToSymlinker).
Proof.
  split.
  - pose proof (select_branch_cases emitted_by st) as Hin.
    intros Heq. rewrite Heq, !elem_of_cons, elem_of_nil in Hin.
    repeat (destruct Hin as [Hin|Hin]; [discriminate|]). exact Hin.
  - intros Hsrc Hidx ->. unfold select_branch.
    rewrite (bool_decide_eq_false_2 _ Hsrc), (bool_decide_eq_false_2 _ Hidx).
    reflexivity.
Qed.

Lemma deref_all_stored (h : Heap) (rs : list ref) :
  (∀ r, r ∈ rs → is_Some (h !! r)) → is_Some (deref_all h rs).
Proof.
  intros Hstored. apply mapM_is_Some_2, Forall_forall. intros r Hr.
  destruct (Hstored r Hr) as [o Ho]. simpl. rewrite Ho. by eexists.
Qed.

(** For an item without a stored counterpart the router always returns,
    provided the item and its children are in the store. *)
Lemma process_event_returns
  (h : Heap) (emitted_by : Service) (item : ref) (o : MediaItem) :
  h !! item = Some o →
  (∀ c, c ∈ children_of o → is_Some (h !! c)) →
  is_Some (process_event h None emitted_by item).
Proof.
  intros Hitem Hchildren. unfold process_event. rewrite Hitem. simpl.
  destruct (select_branch emitted_by (state h item)); simpl;
    try (by eexists).
  - destruct (body o); by eexists.
  - unfold scrape_expansion. rewrite Hitem. simpl.
    repeat case_match; by eexists.
  - unfold children_of in Hchildren.
    destruct (body o) as [|seasons|show episodes|season]; simpl;
      try (by eexists);
      destruct (deref_all_stored h _ Hchildren) as [objs ->];
      by eexists.
Qed.

(** C10. Whenever [process_event] returns submissions, it also names the
    service to run them: a non-empty [items_to_submit] never comes with
    [next_service = None]. *)
Theorem submissions_have_service
  (h : Heap) (existing_item : option ref) (emitted_by : Service) (item : ref)
  (h' : Heap) (updated_item : option ref) (next_service : option Service)
  (items_to_submit : list ref) :
  process_event h existing_item emitted_by item
    = Some (h', (updated_item, next_service, items_to_submit)) →
  items_to_submit ≠ [] →
  next_service ≠ None.
Proof.
  unfold process_event, no_further_processing. intros Hrun Hne.
  destruct (h !! item) as [o|]; simpl in Hrun; [|done].
  destruct (select_branch emitted_by (state h item));
    repeat (simplify_option_eq || case_match); congruence.
Qed.

Lemma select_branch_ToIndexer (emitted_by : Service) (st : States) :
  emitted_by ∈ source_services ∨ st = Unknown →
  select_branch emitted_by st = ToIndexer.
Proof.
  intros Hguard. unfold select_branch.
  destruct Hguard as [Hsrc | ->].
  - by rewrite (bool_decide_eq_true_2 _ Hsrc).
  - by rewrite orb_true_r.
Qed.

(** C1, as amended.  When the emitter is one of the six source services or
    the incoming item is in state [Unknown], the router leaves the store
    alone and returns no merged item.  An item that is not a season is sent
    to the indexer as the single submission, unless there is an existing
    item that the indexer does not want again, in which case nothing is
    processed further.  A season is replaced by its parent show, and the
    existing item by its own parent, before the same decision is taken.
    The dispatcher's own events (emitter [Program]) are not covered. *)
Theorem indexing_arm
  (h : Heap) (existing_item : option ref) (emitted_by : Service) (item : ref)
  (o : MediaItem) :
  emitted_by ∈ source_services ∨ state h item = Unknown →
  h !! item = Some o →
  (is_Season o = false →
     process_event h existing_item emitted_by item =
       Some (h, match existing_item with
                | Some e => if indexer_should_submit h e
                            then (None, Some TraktIndexer, [item])
                            else (None, None, [])
                | None => (None, Some TraktIndexer, [item])
                end))
  ∧ (∀ show episodes, body o = SeasonB show episodes →
       (existing_item = None →
          process_event h existing_item emitted_by item =
            Some (h, (None, Some TraktIndexer, [show])))
       ∧ (∀ e eo existing_show,
            existing_item = Some e → h !! e = Some eo →
            parent_of eo = Some existing_show →
            process_event h existing_item emitted_by item =
              Some (h, if indexer_should_submit h existing_show
                       then (None, Some TraktIndexer, [show])
                       else (None, None, [])))).
Proof.
  intros Hguard Hitem. unfold process_event, no_further_processing.
  rewrite Hitem, (select_branch_ToIndexer _ _ Hguard). simpl.
  split.
  - unfold is_Season. intros Hkind.
    destruct (body o); try discriminate; simpl;
      destruct existing_item as [e|]; simpl; try reflexivity;
      by destruct (indexer_should_submit h e).
  - intros show episodes ->. split.
    + by intros ->.
    + intros e eo existing_show -> He Hparent. simpl.
      rewrite He. simpl. rewrite Hparent. simpl.
      by destruct (indexer_should_submit h existing_show).
Qed.

(** C6, as amended.  When a source service emits again an item (not a
    season) whose stored item is [Completed], the router returns
    [(None, None, [])] if the indexer does not want the stored item again,
    and [(None, TraktIndexer, [item])] if it does; the stored item is never
    returned as the merged item and the store is left as it is. *)
Theorem source_reemits_completed
  (h : Heap) (e : ref) (emitted_by : Service) (item : ref) (o : MediaItem) :
  emitted_by ∈ source_services →
  h !! item = Some o →
  is_Season o = false →
  state h e = Completed →
  process_event h (Some e) emitted_by item =
    Some (h, if indexer_should_submit h e
             then (None, Some TraktIndexer, [item])
             else (None, None, [])).
Proof.
  intros Hsrc Hitem Hkind _.
  unfold process_event, no_further_processing.
  rewrite Hitem, (select_branch_ToIndexer _ _ (or_introl Hsrc)). simpl.
  unfold is_Season in Hkind.
  destruct (body o); try discriminate; simpl;
    by destruct (indexer_should_submit h e).
Qed.

Lemma wants_scrape_filter (h : Heap) (rs : list ref) :
  filter (λ r, wants_scrape h r = true) rs =
  filter (λ r, (state h r ∉ [Completed; Downloaded; Scraped])
               ∧ can_we_scrape h r = true) rs.
Proof.
  apply list_filter_iff. intros r. unfold wants_scrape.
  rewrite andb_true_iff, negb_true_iff, bool_decide_eq_false. tauto.
Qed.

(** C4, as amended.  The scrape expansion yields nothing when the scraper
    refuses the item itself ([can_we_scrape] of line 44).  Otherwise: for a
    season with [scraped_times >= 4], exactly its episodes whose state is
    not [Completed], [Downloaded] or [Scraped] and that pass
    [can_we_scrape], in order; for a season with [scraped_times < 4], the
    season alone; for a show, exactly its seasons filtered the same way.
    For an item without a stored counterpart these are the submissions that
    the scraper arm of [process_event] returns. *)
Theorem scrape_expansion_cases (h : Heap) (item : ref) (o : MediaItem) :
  h !! item = Some o →
  (can_we_scrape h item = false → scrape_expansion h item = Some [])
  ∧ (can_we_scrape h item = true →
     (∀ show episodes, body o = SeasonB show episodes →
        4 ≤ scraped_times o →
        scrape_expansion h item =
          Some (filter (λ e, (state h e ∉ [Completed; Downloaded; Scraped])
                             ∧ can_we_scrape h e = true) episodes))
     ∧ (∀ show episodes, body o = SeasonB show episodes →
        scraped_times o < 4 →
        scrape_expansion h item = Some [item])
     ∧ (∀ seasons, body o = ShowB seasons →
        scrape_expansion h item =
          Some (filter (λ s, (state h s ∉ [Completed; Downloaded; Scraped])
                             ∧ can_we_scrape h s = true) seasons)))
  ∧ (∀ emitted_by subs,
       select_branch emitted_by (state h item) = ToScraper →
       scrape_expansion h item = Some subs →
       process_event h None emitted_by item =
         Some (h, (Some item, Some Scraping, subs))).
Proof.
  intros Hitem. unfold scrape_expansion. rewrite Hitem. simpl.
  split; [|split].
  - by intros ->.
  - intros ->. split; [|split].
    + intros show episodes -> Hge.
      rewrite bool_decide_eq_true_2 by done.
      by rewrite wants_scrape_filter.
    + intros show episodes -> Hlt.
      rewrite bool_decide_eq_false_2 by lia. done.
    + intros seasons ->. by rewrite wants_scrape_filter.
  - intros emitted_by subs Harm Hsubs.
    unfold process_event. rewrite Hitem, Harm. simpl.
    unfold scrape_expansion. rewrite Hitem. simpl.
    by rewrite Hsubs.
Qed.

(** C2, as amended.  In the scraper arm (emitter [TraktIndexer] or state
    [Indexed], the indexing arm not applying) with an existing item: if the
    existing item has no [indexed_at] yet, the incoming item is merged into
    it (missing children filled in when the incoming item is a show or a
    season, the other attributes copied, [indexed_at] set to the incoming
    one) and the existing item takes the place of the incoming one; if it
    already has one, nothing is merged or written.  In both cases, when the
    existing item is then [Completed] the result is exactly
    [(existing, None, [])]; otherwise the scraper is chosen. *)
Theorem scraper_arm_existing
  (h : Heap) (e : ref) (emitted_by : Service) (item : ref)
  (o eo : MediaItem) :
  select_branch emitted_by (state h item) = ToScraper →
  h !! item = Some o →
  h !! e = Some eo →
  (indexed_at eo = None →
     let h2 := copy_other_media_attr e item
                 (if is_Show o || is_Season o
                  then fill_in_missing_children e item h else h) in
     ∀ i e2, h2 !! item = Some i → h2 !! e = Some e2 →
       let h' := <[e := set_indexed_at (indexed_at i) e2]> h2 in
       indexed_at <$> h' !! e = Some (indexed_at i)
       ∧ process_event h (Some e) emitted_by item =
           if bool_decide (state h' e = Completed)
           then Some (h', (Some e, None, []))
           else subs ← scrape_expansion h' e;
                Some (h', (Some e, Some Scraping, subs)))
  ∧ (is_Some (indexed_at eo) →
     process_event h (Some e) emitted_by item =
       if bool_decide (state h e = Completed)
       then Some (h, (Some e, None, []))
       else subs ← scrape_expansion h item;
            Some (h, (Some item, Some Scraping, subs))).
Proof.
  intros Harm Hitem He. split.
  - intros Hnone h2 i e2 Hi He2 h'. split.
    + subst h'. by rewrite lookup_insert_eq.
    + unfold process_event, merge_into_existing.
      rewrite Hitem, Harm. simpl. rewrite He. simpl. rewrite Hnone.
      fold h2. rewrite Hi. simpl. rewrite He2. simpl.
      fold h'. reflexivity.
  - intros [t Ht]. unfold process_event.
    rewrite Hitem, Harm. simpl. rewrite He. simpl. rewrite Ht. simpl.
    reflexivity.
Qed.

(** C5, as amended.  [process_event] writes to an item in one situation
    only: in the scraper arm, when there is an existing item without
    [indexed_at], it merges the incoming item into the existing one.  In
    every other situation the store is returned as it was received, so
    that calling it again with the same arguments gives the same result. *)
Theorem process_event_frame
  (h : Heap) (existing_item : option ref) (emitted_by : Service) (item : ref)
  (h' : Heap) (r : ProcessedEvent) :
  merge_pending h existing_item emitted_by item = false →
  process_event h existing_item emitted_by item = Some (h', r) →
  h' = h ∧ process_event h' existing_item emitted_by item = Some (h', r).
Proof.
  intros Hpending Hrun.
  assert (h' = h) as ->; [|done].
  revert Hpending Hrun. unfold merge_pending, process_event.
  destruct (h !! item) as [o|]; simpl; [|done].
  destruct (select_branch emitted_by (state h item)); simpl;
    intros Hpending Hrun;
    repeat (simplify_option_eq || case_match); congruence.
Qed.

End RouterProperties.

(** * Properties of the program *)

Section ProgramProperties.
Context `{Collaborators} `{ItemGraph}.

Lemma any_initialized (d : gmap Service ServiceInstance) :
  existsb initialized (values d) = true
  ↔ ∃ k s, d !! k = Some s ∧ initialized s = true.
Proof.
  rewrite existsb_exists. unfold values. split.
  - intros (s & Hin & Hinit).
    apply list_elem_of_In, list_elem_of_fmap in Hin as ([k s'] & -> & Hin).
    apply elem_of_map_to_list in Hin. by exists k, s'.
  - intros (k & s & Hk & Hinit). exists s. split; [|done].
    apply list_elem_of_In, list_elem_of_fmap. exists (k, s).
    split; [done|]. by apply elem_of_map_to_list.
Qed.

Lemma all_initialized_iff (d : gmap Service ServiceInstance) :
  forallb initialized (values d) = true
  ↔ ∀ k s, d !! k = Some s → initialized s = true.
Proof.
  rewrite forallb_forall. unfold values. split.
  - intros Hall k s Hk. apply Hall.
    apply list_elem_of_In, list_elem_of_fmap. exists (k, s).
    split; [done|]. by apply elem_of_map_to_list.
  - intros Hall s Hin.
    apply list_elem_of_In, list_elem_of_fmap in Hin as ([k s'] & -> & Hin).
    apply elem_of_map_to_list in Hin. by apply (Hall k).
Qed.

(** C8. [validate] answers true exactly when some requesting (source)
    service is initialized, some library service is initialized, some
    indexing service is initialized, and every processing service is
    initialized. *)
Theorem validate_iff (p : ProgramState) :
  validate p = true
  ↔ (∃ k s, requesting_services p !! k = Some s ∧ initialized s = true)
    ∧ (∃ k s, library_services p !! k = Some s ∧ initialized s = true)
    ∧ (∃ k s, indexing_services p !! k = Some s ∧ initialized s = true)
    ∧ (∀ k s, processing_services p !! k = Some s → initialized s = true).
Proof.
  unfold validate. simpl. unfold id.
  rewrite !andb_true_iff, !any_initialized, all_initialized_iff.
  tauto.
Qed.

(** C3, as amended.  In the loop over the submissions of one dispatcher
    turn, a season bound for the scraper whose [scraped_times] is 3 or more
    at that moment is skipped, and every other submission is handed to the
    pool with the chosen next service, in order; hence every season handed
    to the scraper has [scraped_times < 3] when it is handed over.  The
    loop changes no counter, so this bounds the counter at submission, not
    the number of submissions. *)
Theorem submit_items_guard
  (p : ProgramState) (next_service : Service) (items_to_submit : list ref) :
  is_Some (services p !! next_service) →
  (∀ r, r ∈ items_to_submit → is_Some (store p !! r)) →
  ∃ p',
    submit_items (Some next_service) items_to_submit p = Some p'
    ∧ executor p' =
        executor p ++
        ((λ r, (next_service, Some r)) <$>
         filter (λ r, season_cutoff (store p) next_service r = false)
                items_to_submit)
    ∧ store p' = store p
    ∧ media_items p' = media_items p
    ∧ event_queue p' = event_queue p
    ∧ (∀ r o, (Scraping, Some r) ∈ drop (length (executor p)) (executor p') →
         store p !! r = Some o → is_Season o = true → scraped_times o < 3).
Proof.
  intros Hreg Hstored.
  cut (∃ p',
    submit_items (Some next_service) items_to_submit p = Some p'
    ∧ executor p' =
        executor p ++
        ((λ r, (next_service, Some r)) <$>
         filter (λ r, season_cutoff (store p) next_service r = false)
                items_to_submit)
    ∧ store p' = store p
    ∧ media_items p' = media_items p
    ∧ event_queue p' = event_queue p).
  { intros (p' & Hrun & Hexec & Hrest). exists p'.
    repeat split; try tauto.
    intros r o Hin Hr Hseason. rewrite Hexec, drop_app_length in Hin.
    apply list_elem_of_fmap in Hin as (r' & Heq & Hin).
    injection Heq as Hservice Hr'. subst next_service r'.
    apply list_elem_of_filter in Hin as [Hkeep _].
    unfold season_cutoff in Hkeep. rewrite Hr, Hseason in Hkeep.
    rewrite bool_decide_eq_true_2 in Hkeep by done. simpl in Hkeep.
    apply bool_decide_eq_false in Hkeep. lia. }
  clear -Hreg Hstored.
  revert p Hreg Hstored.
  induction items_to_submit as [|r rest IH]; intros p Hreg Hstored.
  - exists p. simpl. by rewrite app_nil_r.
  - destruct (Hstored r) as [o Ho]; [by left|].
    assert (∀ r', r' ∈ rest → is_Some (store p !! r')) as Hrest
      by (intros r' Hr'; apply Hstored; by right).
    simpl. rewrite Ho. simpl.
    rewrite filter_cons.
    assert (is_Season o && bool_decide (Some next_service = Some Scraping)
            && bool_decide (3 ≤ scraped_times o)
            = season_cutoff (store p) next_service r) as ->.
    { unfold season_cutoff. rewrite Ho. do 2 f_equal.
      apply bool_decide_ext. split; [by intros [= ->]|by intros ->]. }
    destruct (season_cutoff (store p) next_service r) eqn:Hcut.
    + rewrite decide_False by done. by apply IH.
    + rewrite decide_True by done.
      pose proof Hreg as [i Hi]. rewrite Hi. simpl.
      destruct (IH (set_executor (executor p ++ [(next_service, Some r)]) p))
        as (p' & Hrun & Hexec & Hstore & Hmedia & Hqueue); [done|done|].
      exists p'. split; [done|]. simpl in *.
      rewrite Hexec, <- app_assoc. done.
Qed.

Lemma enqueue_yields_events (service : Service) (ys : list Yield)
  (q : list Event) :
  enqueue_yields service ys q = q ++ events_of service ys.
Proof.
  revert q. induction ys as [|[r|] ys IH]; intros q; simpl.
  - by rewrite app_nil_r.
  - by rewrite IH, <- app_assoc.
  - apply IH.
Qed.

(** C7, as amended.  When a service call raises, the callback returns
    normally exactly when the exception is an instance of [Exception]: that
    one is caught and does not propagate, while an exception that is a
    [BaseException] only leaves the callback.  Either way, the media items
    that the call yielded before it raised have each been put on the event
    queue, tagged with the service, and nothing else has; a call that
    raises before yielding anything adds nothing.  The callback itself
    writes to no item and submits nothing: the items are as the run left
    them, at their earlier state when the run wrote nothing. *)
Theorem callback_contains_failure
  (future : FutureResult) (service : Service) (p : ProgramState) :
  ending future ≠ Exhausted →
  ((_process_future_item future service p).1 = Returns
   ↔ ending future = RaisesException)
  ∧ ((_process_future_item future service p).1 = Propagates
     ↔ ending future = RaisesBaseException)
  ∧ event_queue (_process_future_item future service p).2
      = event_queue p ++ events_of service (yields future)
  ∧ (yields future = [] →
     event_queue (_process_future_item future service p).2 = event_queue p)
  ∧ store (_process_future_item future service p).2
      = writes future (store p)
  ∧ ((∀ h, writes future h = h) →
     store (_process_future_item future service p).2 = store p)
  ∧ media_items (_process_future_item future service p).2 = media_items p
  ∧ executor (_process_future_item future service p).2 = executor p.
Proof.
  intros Hraise. unfold _process_future_item.
  rewrite enqueue_yields_events.
  destruct (ending future) eqn:Hending; [done| |]; simpl.
  - split; [done|]. split; [done|]. split; [done|].
    split; [intros ->; simpl; by rewrite app_nil_r|].
    split; [done|]. split; [intros Hid; apply Hid|]. done.
  - split; [done|]. split; [done|]. split; [done|].
    split; [intros ->; simpl; by rewrite app_nil_r|].
    split; [done|]. split; [intros Hid; apply Hid|]. done.
Qed.

End ProgramProperties.

(** * The code on the small library *)

Local Open Scope positive_scope.

(** C1, counterexample.  The dispatcher queues the scraped movie itself
    (emitter [Program], as [_retry_library] and [add_to_queue] do); the
    router sends it to the downloader, not to the indexer. *)
Lemma retry_event_goes_to_downloader :
  @state env library 1 = Scraped
  ∧ @process_event env library None Program 1
      = Some (library, (Some 1, Some Downloader, [1]))
  ∧ @process_event env library None Program 1
      ≠ Some (library, (None, Some TraktIndexer, [1])).
Proof.
  split; [vm_compute; reflexivity|].
  assert (@process_event env library None Program 1
          = Some (library, (Some 1, Some Downloader, [1]))) as Hrun
    by (vm_compute; reflexivity).
  split; [exact Hrun|]. rewrite Hrun. discriminate.
Qed.

(** The indexing arm on the library: a fresh stored movie, a season sent by
    a source, and a stored movie in state [Unknown] queued by the dispatcher. *)
Lemma indexing_arm_witness :
  (Overseerr ∈ source_services ∨ @state env library 3 = Unknown)
  ∧ library !! 3 = Some movie_requested
  ∧ @process_event env library (Some 2) Overseerr 3
      = Some (library, (None, None, []))
  ∧ @process_event env library None Overseerr 11
      = Some (library, (None, Some TraktIndexer, [10]))
  ∧ @process_event env library (Some 5) Program 5
      = Some (library, (None, Some TraktIndexer, [5])).
Proof.
  assert (Overseerr ∈ source_services) as Hsrc by (by left).
  split; [by left|]. split; [reflexivity|]. split.
  - destruct (@indexing_arm env library (Some 2) Overseerr 3 movie_requested)
      as [Hleaf _]; [by left | reflexivity |].
    rewrite Hleaf by reflexivity. vm_compute. reflexivity.
  - destruct (@indexing_arm env library None Overseerr 11 season_indexed)
      as [_ Hseason]; [by left | reflexivity |].
    destruct (Hseason 10 [12] eq_refl) as [Hnone _].
    split; [exact (Hnone eq_refl)|].
    destruct (@indexing_arm env library (Some 5) Program 5 movie_stored_bare)
      as [Hleaf _]; [right; vm_compute; reflexivity | reflexivity |].
    rewrite Hleaf by reflexivity. vm_compute. reflexivity.
Defined.

(** C2, counterexample.  The indexer emits the movie again, with a newer
    [indexed_at] and another title, while the stored movie already has an
    [indexed_at]: nothing is merged, the stored movie keeps its
    [indexed_at] and its title, and the incoming object goes on to the
    scraper. *)
Lemma indexed_existing_is_left_alone :
  @select_branch TraktIndexer (@state env library 4) = ToScraper
  ∧ @process_event env library (Some 1) TraktIndexer 4
      = Some (library, (Some 4, Some Scraping, [4]))
  ∧ indexed_at <$> library !! 4 = Some (Some 900%Z)
  ∧ indexed_at <$> library !! 1 = Some (Some 100%Z)
  ∧ title <$> library !! 1 = Some (Some "One"%string).
Proof. repeat split; vm_compute; reflexivity. Qed.

(** The scraper arm on the library: a merge into the bare stored movie, and
    the completed movie, which ends there. *)
Lemma scraper_arm_existing_witness :
  select_branch TraktIndexer (@state env library 6) = ToScraper
  ∧ library !! 6 = Some movie_fresh_metadata
  ∧ library !! 5 = Some movie_stored_bare
  ∧ indexed_at movie_stored_bare = None
  ∧ @process_event env library (Some 5) TraktIndexer 6
      = Some (library_after_merge, (Some 5, Some Scraping, [5]))
  ∧ @process_event env library (Some 2) TraktIndexer 2
      = Some (library, (Some 2, None, [])).
Proof.
  split; [vm_compute; reflexivity|].
  split; [reflexivity|]. split; [reflexivity|]. split; [reflexivity|].
  split.
  - destruct (@scraper_arm_existing env library 5 TraktIndexer 6
                movie_fresh_metadata movie_stored_bare)
      as [Hmerge _]; [vm_compute; reflexivity | reflexivity | reflexivity |].
    destruct (Hmerge eq_refl movie_fresh_metadata
                (mkItem "m5" (Some "tt5") (Some "Five") 0 None 0 None
                        None None false None MovieB))
      as [_ Hrun]; [vm_compute; reflexivity | vm_compute; reflexivity |].
    rewrite Hrun. vm_compute. reflexivity.
  - destruct (@scraper_arm_existing env library 2 TraktIndexer 2
                movie_completed movie_completed)
      as [_ Hkeep]; [vm_compute; reflexivity | reflexivity | reflexivity |].
    rewrite Hkeep by (by eexists). vm_compute. reflexivity.
Defined.

(** C4, counterexample.  The season has [scraped_times = 0 < 4], but the
    scraper refuses it: the expansion is empty, not the season itself. *)
Lemma refused_season_is_not_submitted :
  library !! 11 = Some season_indexed
  ∧ (scraped_times season_indexed < 4)%Z
  ∧ @can_we_scrape env_season_refused library 11 = false
  ∧ @scrape_expansion env_season_refused library 11 = Some []
  ∧ @process_event env_season_refused library None TraktIndexer 11
      = Some (library, (Some 11, Some Scraping, [])).
Proof. repeat split; vm_compute; reflexivity. Qed.

(** The expansion of the show, of its first season, and of that season when
    the scraper refuses it. *)
Lemma scrape_expansion_cases_witness :
  library !! 10 = Some show_indexed
  ∧ library !! 11 = Some season_indexed
  ∧ @scrape_expansion env library 10 = Some [11; 13]
  ∧ @scrape_expansion env library 11 = Some [11]
  ∧ @scrape_expansion env_season_refused library 11 = Some [].
Proof.
  split; [reflexivity|]. split; [reflexivity|].
  destruct (@scrape_expansion_cases env library 10 show_indexed eq_refl)
    as (_ & Hshow & _).
  destruct (@scrape_expansion_cases env library 11 season_indexed eq_refl)
    as (_ & Hseason & _).
  destruct (@scrape_expansion_cases env_season_refused library 11
              season_indexed eq_refl) as (Hrefused & _).
  split; [|split].
  - destruct (Hshow eq_refl) as (_ & _ & Hseasons).
    rewrite (Hseasons [11; 13] eq_refl). vm_compute. reflexivity.
  - destruct (Hseason eq_refl) as (_ & Hfew & _).
    apply (Hfew 10 [12] eq_refl). vm_compute. reflexivity.
  - apply Hrefused. reflexivity.
Defined.

(** C5, counterexample.  The stored movie has no [indexed_at] and the
    indexer emits its metadata: the call writes the title and [indexed_at]
    of the stored movie, and the same call made again returns the incoming
    object where the first returned the stored one. *)
Lemma merge_writes_existing_item :
  @process_event env library (Some 5) TraktIndexer 6
    = Some (library_after_merge, (Some 5, Some Scraping, [5]))
  ∧ library !! 5 = Some movie_stored_bare
  ∧ library_after_merge !! 5 ≠ library !! 5
  ∧ @process_event env library_after_merge (Some 5) TraktIndexer 6
    = Some (library_after_merge, (Some 6, Some Scraping, [6])).
Proof.
  split; [vm_compute; reflexivity|]. split; [reflexivity|].
  split; [|vm_compute; reflexivity].
  vm_compute. discriminate.
Qed.

(** Routing the scraped movie leaves the library as it is. *)
Lemma process_event_frame_witness :
  @merge_pending env library None Program 1 = false
  ∧ @process_event env library None Program 1
      = Some (library, (Some 1, Some Downloader, [1]))
  ∧ library = library
  ∧ @process_event env library None Program 1
      = Some (library, (Some 1, Some Downloader, [1])).
Proof.
  assert (@process_event env library None Program 1
          = Some (library, (Some 1, Some Downloader, [1]))) as Hrun
    by (vm_compute; reflexivity).
  split; [vm_compute; reflexivity|]. split; [exact Hrun|].
  apply (@process_event_frame env library None Program 1 library
           (Some 1, Some Downloader, [1]));
    [vm_compute; reflexivity | exact Hrun].
Defined.

(** C6, counterexample.  Overseerr emits the completed movie again.  The
    router returns [(None, None, [])]: the merged item is [None], not the
    stored movie. *)
Lemma source_reemits_completed_returns_nothing :
  Overseerr ∈ source_services
  ∧ @state env library 2 = Completed
  ∧ item_id <$> library !! 3 = item_id <$> library !! 2
  ∧ @process_event env library (Some 2) Overseerr 3
      = Some (library, (None, None, []))
  ∧ @process_event env library (Some 2) Overseerr 3
      ≠ Some (library, (Some 2, None, [])).
Proof.
  assert (@process_event env library (Some 2) Overseerr 3
          = Some (library, (None, None, []))) as Hrun
    by (vm_compute; reflexivity).
  split; [by left|]. split; [vm_compute; reflexivity|].
  split; [reflexivity|]. split; [exact Hrun|].
  rewrite Hrun. discriminate.
Qed.

(** The completed movie emitted again by Overseerr, while its metadata is
    fresh and once it is stale. *)
Lemma source_reemits_completed_witness :
  Overseerr ∈ source_services
  ∧ library !! 3 = Some movie_requested
  ∧ is_Season movie_requested = false
  ∧ @state env library 2 = Completed
  ∧ @process_event env library (Some 2) Overseerr 3
      = Some (library, (None, None, []))
  ∧ @process_event env_later library (Some 2) Overseerr 3
      = Some (library, (None, Some TraktIndexer, [3])).
Proof.
  assert (Overseerr ∈ source_services) as Hsrc by (by left).
  split; [exact Hsrc|]. split; [reflexivity|]. split; [reflexivity|].
  split; [vm_compute; reflexivity|]. split.
  - rewrite (@source_reemits_completed env library 2 Overseerr 3
               movie_requested Hsrc eq_refl eq_refl);
      vm_compute; reflexivity.
  - rewrite (@source_reemits_completed env_later library 2 Overseerr 3
               movie_requested Hsrc eq_refl eq_refl);
      vm_compute; reflexivity.
Defined.

(** A downloaded item queued by the dispatcher takes the first of the two
    arms. *)
Lemma second_downloaded_arm_unreachable_witness :
  (Program ∉ source_services)
  ∧ Program ≠ TraktIndexer
  ∧ select_branch Program Downloaded = ToSymlinker.
Proof.
  assert (Program ∉ source_services) as Hsrc.
  { apply (bool_decide_unpack _). vm_compute. exact I. }
  split; [exact Hsrc|]. split; [discriminate|].
  apply (second_downloaded_arm_unreachable Program Downloaded);
    [exact Hsrc | discriminate | reflexivity].
Defined.

(** The scraped movie is submitted, and the downloader is named. *)
Lemma submissions_have_service_witness :
  @process_event env library None Program 1
    = Some (library, (Some 1, Some Downloader, [1]))
  ∧ [1] ≠ ([] : list ref)
  ∧ Some Downloader ≠ None.
Proof.
  assert (@process_event env library None Program 1
          = Some (library, (Some 1, Some Downloader, [1]))) as Hrun
    by (vm_compute; reflexivity).
  split; [exact Hrun|]. split; [discriminate|].
  apply (@submissions_have_service env library None Program 1 library
           (Some 1) (Some Downloader) [1] Hrun). discriminate.
Defined.

(** C3, counterexample.  The stored season, never scraped, is queued four
    times; four turns of the dispatcher hand it to the scraper four
    times. *)
Lemma season_submitted_four_times :
  is_Season <$> library !! 11 = Some true
  ∧ executor <$> @run env spec_graph 4 season_queued_four_times
      = Some [(Scraping, Some 11); (Scraping, Some 11);
              (Scraping, Some 11); (Scraping, Some 11)].
Proof. split; vm_compute; reflexivity. Qed.

(** The two seasons and the episode bound for the scraper: the season scraped
    three times is dropped, the others reach the pool in order. *)
Lemma submit_items_guard_witness :
  is_Some (services idle_program !! Scraping)
  ∧ (∀ r, r ∈ [11; 13; 12] → is_Some (store idle_program !! r))
  ∧ executor <$> @submit_items spec_graph (Some Scraping) [11; 13; 12]
                   idle_program
      = Some [(Scraping, Some 11); (Scraping, Some 12)].
Proof.
  assert (is_Some (services idle_program !! Scraping)) as Hreg.
  { exists (mkInstance true). vm_compute. reflexivity. }
  assert (∀ r, r ∈ [11; 13; 12] → is_Some (store idle_program !! r))
    as Hstored.
  { intros r Hr. rewrite !elem_of_cons, elem_of_nil in Hr.
    destruct Hr as [->|[->|[->|[]]]]; eexists; vm_compute; reflexivity. }
  split; [exact Hreg|]. split; [exact Hstored|].
  destruct (@submit_items_guard spec_graph idle_program Scraping
              [11; 13; 12] Hreg Hstored) as (p' & Hrun & Hexec & _).
  rewrite Hrun. simpl. rewrite Hexec. vm_compute. reflexivity.
Defined.

(** C7, counterexample.  A call of the scraper yields the movie and then
    raises: the queue has received an event from the failed call.  A call
    that is stopped by [SystemExit] raises too, and the exception leaves
    the callback. *)
Lemma partial_yields_are_enqueued :
  ending yields_then_raises = RaisesException
  ∧ event_queue idle_program = []
  ∧ event_queue
      (@_process_future_item spec_graph yields_then_raises Scraping
         idle_program).2
    = [mkEvent Scraping 1]
  ∧ ending stopped_by_system_exit = RaisesBaseException
  ∧ (@_process_future_item spec_graph stopped_by_system_exit Scraping
       idle_program).1 = Propagates.
Proof. repeat split. Qed.

(** The callback returns on a call that fails with an [Exception]; a call
    that fails at once leaves the queue as it was; and what a call wrote
    before it failed stays written. *)
Lemma callback_contains_failure_witness :
  ending yields_then_raises ≠ Exhausted
  ∧ (@_process_future_item spec_graph yields_then_raises Scraping
       idle_program).1 = Returns
  ∧ event_queue
      (@_process_future_item spec_graph counts_then_raises Scraping
         idle_program).2
    = event_queue idle_program
  ∧ scraped_times <$>
      store (@_process_future_item spec_graph counts_then_raises Scraping
               idle_program).2 !! 11
    = Some 1%Z.
Proof.
  assert (ending yields_then_raises ≠ Exhausted) as Hraises by discriminate.
  assert (ending counts_then_raises ≠ Exhausted) as Hraises' by discriminate.
  split; [exact Hraises|]. split; [|split].
  - apply (@callback_contains_failure spec_graph yields_then_raises Scraping
             idle_program Hraises).
    reflexivity.
  - destruct (@callback_contains_failure spec_graph counts_then_raises
                Scraping idle_program Hraises')
      as (_ & _ & _ & Hnothing & _).
    apply Hnothing. reflexivity.
  - destruct (@callback_contains_failure spec_graph counts_then_raises
                Scraping idle_program Hraises')
      as (_ & _ & _ & _ & Hstore & _).
    rewrite Hstore. vm_compute. reflexivity.
Defined.

(** The idle program is valid; a program whose downloader is not initialized
    is not. *)
Lemma validate_iff_witness :
  @validate spec_graph idle_program = true
  ∧ @validate spec_graph
      (mkProgram (all_initialized [Overseerr]) (all_initialized [TraktIndexer])
         (<[Downloader := mkInstance false]>
            (all_initialized [Scraping; Symlinker; PlexUpdater]))
         (all_initialized [SymlinkLibrary]) [] ∅ ∅ []) ≠ true.
Proof.
  split.
  - apply (@validate_iff spec_graph idle_program). repeat split.
    + exists Overseerr, (mkInstance true). by vm_compute.
    + exists SymlinkLibrary, (mkInstance true). by vm_compute.
    + exists TraktIndexer, (mkInstance true). by vm_compute.
    + intros k s Hk.
      destruct k; vm_compute in Hk;
        first [discriminate | by injection Hk as <-].
  - intros Hvalid.
    apply (@validate_iff spec_graph) in Hvalid as (_ & _ & _ & Hall).
    specialize (Hall Downloader (mkInstance false)).
    discriminate Hall. vm_compute. reflexivity.
Defined.

Local Close Scope positive_scope.

(** * Further properties of the router *)

Section RouterInvariants.
Context `{Collaborators}.

Lemma select_branch_other_emitter (emitted_by : Service) (st : States) :
  emitted_by ∉ source_services → emitted_by ≠ TraktIndexer →
  select_branch emitted_by st =
    match st with
    | Unknown => ToIndexer
    | Indexed => ToScraper
    | PartiallyCompleted => PartialToScraper
    | Scraped => ToDownloader
    | Downloaded => ToSymlinker
    | Symlinked => ToUpdater
    | Completed => Finished
    end.
Proof.
  intros Hsrc Hidx. unfold select_branch.
  rewrite (bool_decide_eq_false_2 _ Hsrc), (bool_decide_eq_false_2 _ Hidx).
  by destruct st.
Qed.

Lemma select_branch_is_not (emitted_by : Service) (st : States) :
  select_branch emitted_by st ≠ ToSymlinkerAgain
  ∧ select_branch emitted_by st ≠ NoArm.
Proof.
  pose proof (select_branch_cases emitted_by st) as Hin.
  rewrite !elem_of_cons, elem_of_nil in Hin.
  split; intros Heq; rewrite Heq in Hin;
    repeat (destruct Hin as [Hin|Hin]; [discriminate|]); exact Hin.
Qed.

Lemma no_service_no_submissions
  (h : Heap) (existing_item : option ref) (emitted_by : Service) (item : ref)
  (h' : Heap) (updated_item : option ref) (items_to_submit : list ref) :
  process_event h existing_item emitted_by item
    = Some (h', (updated_item, None, items_to_submit)) →
  items_to_submit = [].
Proof.
  unfold process_event, no_further_processing. intros Hrun.
  destruct (h !! item) as [o|]; simpl in Hrun; [|done].
  destruct (select_branch emitted_by (state h item));
    repeat (simplify_option_eq || case_match); congruence.
Qed.

(** The chain of lines 24-119 handles every event: each of the seven states
    is the guard of an arm, so the final [return] of line 121 is never
    reached without one.  For an emitter that is neither a source nor the
    indexer, the arm depends on the state of the item alone. *)
Theorem select_branch_by_state (emitted_by : Service) (st : States) :
  select_branch emitted_by st ≠ NoArm
  ∧ (emitted_by ∉ source_services → emitted_by ≠ TraktIndexer →
     select_branch emitted_by st =
       match st with
       | Unknown => ToIndexer
       | Indexed => ToScraper
       | PartiallyCompleted => PartialToScraper
       | Scraped => ToDownloader
       | Downloaded => ToSymlinker
       | Symlinked => ToUpdater
       | Completed => Finished
       end).
Proof.
  split.
  - apply select_branch_is_not.
  - apply select_branch_other_emitter.
Qed.

Lemma scrape_expansion_elem (h : Heap) (item : ref) (subs : list ref) :
  scrape_expansion h item = Some subs →
  ∀ s, s ∈ subs →
    can_we_scrape h s = true
    ∧ (s = item
       ∨ ∃ o, h !! item = Some o ∧ s ∈ children_of o
              ∧ state h s ∉ [Completed; Downloaded; Scraped]).
Proof.
  unfold scrape_expansion. intros Hexp s Hs.
  destruct (h !! item) as [o|] eqn:Hitem; simpl in Hexp; [|done].
  destruct (can_we_scrape h item) eqn:Hcan.
  - assert (∀ cs : list ref, s ∈ filter (λ c, wants_scrape h c = true) cs →
              can_we_scrape h s = true
              ∧ s ∈ cs ∧ state h s ∉ [Completed; Downloaded; Scraped])
      as Hfilter.
    { intros cs Hin. apply list_elem_of_filter in Hin as [Hwant Hin].
      unfold wants_scrape in Hwant.
      apply andb_true_iff in Hwant as [Hstate Hok].
      apply negb_true_iff, bool_decide_eq_false in Hstate. done. }
    unfold children_of.
    destruct (body o) as [|seasons|show episodes|season] eqn:Hbody;
      simplify_eq.
    + apply list_elem_of_singleton in Hs as ->. auto.
    + destruct (Hfilter _ Hs) as (? & ? & ?). split; [done|].
      right. exists o. by rewrite Hbody.
    + case_bool_decide; simplify_eq.
      * destruct (Hfilter _ Hs) as (? & ? & ?). split; [done|].
        right. exists o. by rewrite Hbody.
      * apply list_elem_of_singleton in Hs as ->. auto.
    + apply list_elem_of_singleton in Hs as ->. auto.
  - simplify_eq. by apply elem_of_nil in Hs.
Qed.

(** The router never hands the scraper an item that the scraper refuses:
    whenever [process_event] names [Scraping] as the next service, every
    submission passes [can_we_scrape] on the store that it returns. *)
Theorem scraper_submissions_accepted
  (h : Heap) (existing_item : option ref) (emitted_by : Service) (item : ref)
  (h' : Heap) (updated_item : option ref) (items_to_submit : list ref) :
  process_event h existing_item emitted_by item
    = Some (h', (updated_item, Some Scraping, items_to_submit)) →
  ∀ s, s ∈ items_to_submit → can_we_scrape h' s = true.
Proof.
  unfold process_event, no_further_processing. intros Hrun s Hs.
  destruct (h !! item) as [o|]; simpl in Hrun; [|done].
  destruct (select_branch emitted_by (state h item));
    try (repeat (simplify_option_eq || case_match); congruence).
  - repeat (simplify_option_eq || case_match);
      by eapply scrape_expansion_elem.
  - simplify_eq. destruct (body o); try (by apply elem_of_nil in Hs);
      apply list_elem_of_filter in Hs as [Hok _];
      by apply andb_true_iff in Hok as [_ Hok].
Qed.

(** Apart from the item that is routed itself, nothing in state
    [Completed] is ever submitted to the scraper. *)
Theorem scraper_skips_completed_children
  (h : Heap) (existing_item : option ref) (emitted_by : Service) (item : ref)
  (h' : Heap) (updated_item : ref) (items_to_submit : list ref) :
  process_event h existing_item emitted_by item
    = Some (h', (Some updated_item, Some Scraping, items_to_submit)) →
  ∀ s, s ∈ items_to_submit → s ≠ updated_item → state h' s ≠ Completed.
Proof.
  unfold process_event, no_further_processing. intros Hrun s Hs Hne.
  destruct (h !! item) as [o|]; simpl in Hrun; [|done].
  destruct (select_branch emitted_by (state h item));
    try (repeat (simplify_option_eq || case_match); congruence).
  - assert (∀ hh it (subs : list ref),
              scrape_expansion hh it = Some subs → s ∈ subs →
              s ≠ it → state hh s ≠ Completed) as Hexp.
    { intros hh it subs Hsubs Hin Hit.
      destruct (scrape_expansion_elem hh it subs Hsubs s Hin)
        as [_ [->|(o' & _ & _ & Hstate)]]; [done|].
      intros Heq. apply Hstate. rewrite Heq. by left. }
    repeat (simplify_option_eq || case_match); by eapply Hexp.
  - simplify_eq. destruct (body o); try (by apply elem_of_nil in Hs);
      apply list_elem_of_filter in Hs as [Hok _];
      apply andb_true_iff in Hok as [Hstate _].
    + apply negb_true_iff, bool_decide_eq_false in Hstate.
      intros Heq. apply Hstate. rewrite Heq. by left.
    + apply bool_decide_eq_true in Hstate. by rewrite Hstate.
Qed.

Lemma deref_all_elem (h : Heap) (rs : list ref)
  (objs : list (ref * MediaItem)) :
  deref_all h rs = Some objs →
  ∀ x, x ∈ objs → x.1 ∈ rs ∧ h !! x.1 = Some x.2.
Proof.
  unfold deref_all. intros Hall x Hx.
  apply mapM_Some_1 in Hall.
  apply list_elem_of_lookup_1 in Hx as [i Hi].
  destruct (Forall2_lookup_r _ _ _ _ _ Hall Hi) as (r & Hri & Hlook).
  assert (r ∈ rs) as Hr by (by eapply list_elem_of_lookup_2).
  destruct (h !! r) as [o|] eqn:Ho; simpl in Hlook; [|done].
  injection Hlook as <-. done.
Qed.

Lemma symlink_proposal_elem (item : ref) (children : list (ref * MediaItem)) :
  ∀ s, s ∈ symlink_proposal item children →
    s = item
    ∨ ∃ so, (s, so) ∈ children ∧ symlinked so = false
            ∧ truthy (file so) = true ∧ truthy (folder so) = true.
Proof.
  intros s. unfold symlink_proposal. case_match.
  - intros Hs. left. by apply list_elem_of_singleton in Hs.
  - intros Hs. right.
    apply list_elem_of_fmap in Hs as ([s' so] & -> & Hin).
    apply list_elem_of_filter in Hin as [Hready Hin].
    unfold not_symlinked, has_file_and_folder in Hready. simpl in Hready.
    apply andb_true_iff in Hready as [Hsym Hready].
    apply andb_true_iff in Hready as [Hfile Hfolder].
    apply negb_true_iff in Hsym. exists so. done.
Qed.

(** When [process_event] names [Symlinker] as the next service, it has
    written nothing, the item itself is the merged item, and every
    submission passes [Symlinker.should_submit].  A submission is either
    the item itself or one of its children that is not symlinked yet and
    has both its file and its folder. *)
Theorem symlinker_submissions_ready
  (h : Heap) (existing_item : option ref) (emitted_by : Service) (item : ref)
  (o : MediaItem) (h' : Heap) (updated_item : option ref)
  (items_to_submit : list ref) :
  h !! item = Some o →
  process_event h existing_item emitted_by item
    = Some (h', (updated_item, Some Symlinker, items_to_submit)) →
  h' = h ∧ updated_item = Some item
  ∧ ∀ s, s ∈ items_to_submit →
      symlinker_should_submit h s = true
      ∧ (s = item
         ∨ s ∈ children_of o
           ∧ ∃ so, h !! s = Some so ∧ symlinked so = false
                   ∧ truthy (file so) = true ∧ truthy (folder so) = true).
Proof.
  unfold process_event, no_further_processing. intros Hitem Hrun.
  rewrite Hitem in Hrun. simpl in Hrun.
  pose proof (proj1 (select_branch_is_not emitted_by (state h item)))
    as Hnot.
  destruct (select_branch emitted_by (state h item)); try done;
    try (repeat (simplify_option_eq || case_match); congruence).
  clear Hnot.
  destruct (match body o with
            | ShowB seasons => symlink_proposal item <$> deref_all h seasons
            | SeasonB _ episodes =>
                symlink_proposal item <$> deref_all h episodes
            | _ => Some [item]
            end) as [proposed|] eqn:Hprop; simpl in Hrun; [|done].
  injection Hrun as Hh Hu Hsubs. subst h' updated_item items_to_submit.
  split; [done|]. split; [done|].
  intros s Hs. apply list_elem_of_filter in Hs as [Hok Hs].
  split; [done|].
  assert (∀ cs, symlink_proposal item <$> deref_all h cs = Some proposed →
            s = item
            ∨ s ∈ cs
              ∧ ∃ so, h !! s = Some so ∧ symlinked so = false
                      ∧ truthy (file so) = true ∧ truthy (folder so) = true)
    as Hcontainer.
  { intros cs Hcs.
    destruct (deref_all h cs) as [objs|] eqn:Hobjs; simpl in Hcs; [|done].
    injection Hcs as <-.
    destruct (symlink_proposal_elem item objs s Hs)
      as [->|(so & Hin & Hsym & Hfile & Hfolder)]; [by left|].
    right. destruct (deref_all_elem h cs objs Hobjs _ Hin) as [Hmem Hlook].
    split; [done|]. by exists so. }
  unfold children_of.
  destruct (body o); try (by apply Hcontainer);
    simplify_eq; left; by apply list_elem_of_singleton in Hs.
Qed.

Lemma symlinker_arm_local
  (h : Heap) (existing_item : option ref) (emitted_by : Service) (item : ref)
  (o : MediaItem) (h' : Heap) (updated_item : option ref)
  (items_to_submit : list ref) :
  h !! item = Some o →
  process_event h existing_item emitted_by item
    = Some (h', (updated_item, Some Symlinker, items_to_submit)) →
  ∀ s, s ∈ items_to_submit → s = item ∨ s ∈ children_of o.
Proof.
  unfold process_event, no_further_processing. intros Hitem Hrun.
  rewrite Hitem in Hrun. simpl in Hrun.
  pose proof (proj1 (select_branch_is_not emitted_by (state h item)))
    as Hnot.
  destruct (select_branch emitted_by (state h item)); try done;
    try (repeat (simplify_option_eq || case_match); congruence).
  clear Hnot. intros s Hs.
  assert (∀ cs proposed,
            symlink_proposal item <$> deref_all h cs = Some proposed →
            s ∈ proposed → s = item ∨ s ∈ cs) as Hcontainer.
  { intros cs proposed Hcs Hin.
    destruct (deref_all h cs) as [objs|] eqn:Hobjs; simpl in Hcs; [|done].
    injection Hcs as <-.
    destruct (symlink_proposal_elem item objs s Hin)
      as [->|(so & Hmem & _)]; [by left|].
    right. by destruct (deref_all_elem h cs objs Hobjs _ Hmem). }
  unfold children_of.
  destruct (body o) as [|seasons|show episodes|season]; simpl in Hrun.
  - simplify_eq. apply list_elem_of_filter in Hs as [_ Hs].
    left. by apply list_elem_of_singleton in Hs.
  - destruct (symlink_proposal item <$> deref_all h seasons)
      as [proposed|] eqn:Hprop; simpl in Hrun; [|done].
    simplify_eq. apply list_elem_of_filter in Hs as [_ Hs].
    by eapply Hcontainer.
  - destruct (symlink_proposal item <$> deref_all h episodes)
      as [proposed|] eqn:Hprop; simpl in Hrun; [|done].
    simplify_eq. apply list_elem_of_filter in Hs as [_ Hs].
    by eapply Hcontainer.
  - simplify_eq. apply list_elem_of_filter in Hs as [_ Hs].
    left. by apply list_elem_of_singleton in Hs.
Qed.

(** Everything that [process_event] submits is at hand: the routed item,
    its parent (a season on its way to the indexer), the existing item, or
    a child of the routed or of the existing item. *)
Theorem submissions_are_local
  (h : Heap) (existing_item : option ref) (emitted_by : Service) (item : ref)
  (o : MediaItem) (h' : Heap) (updated_item : option ref)
  (next_service : option Service) (items_to_submit : list ref) :
  h !! item = Some o →
  process_event h existing_item emitted_by item
    = Some (h', (updated_item, next_service, items_to_submit)) →
  ∀ s, s ∈ items_to_submit →
    s = item ∨ parent_of o = Some s ∨ existing_item = Some s
    ∨ s ∈ children_of o
    ∨ ∃ e eo, existing_item = Some e ∧ h' !! e = Some eo
              ∧ s ∈ children_of eo.
Proof.
  intros Hitem Hrun s Hs.
  destruct next_service as [service|]; cycle 1.
  { destruct items_to_submit; [by apply elem_of_nil in Hs|].
    by pose proof (no_service_no_submissions _ _ _ _ _ _ _ Hrun). }
  destruct (decide (service = Symlinker)) as [->|Hsym].
  { destruct (symlinker_arm_local _ _ _ _ _ _ _ _ Hitem Hrun s Hs)
      as [->|Hchild]; auto. }
  revert Hrun. unfold process_event, no_further_processing.
  rewrite Hitem. simpl.
  destruct (select_branch emitted_by (state h item)); intros Hrun;
    try (repeat (simplify_option_eq || case_match); congruence).
  - unfold parent_of.
    repeat (simplify_option_eq || case_match);
      apply list_elem_of_singleton in Hs as ->; auto.
  - assert (∀ it subs, scrape_expansion h it = Some subs → s ∈ subs →
              it = item → s = item ∨ s ∈ children_of o) as Hsame.
    { intros it subs Hsubs Hin ->.
      destruct (scrape_expansion_elem h item subs Hsubs s Hin)
        as [_ [->|(o' & Ho' & Hchild & _)]]; [by left|].
      right. congruence. }
    assert (∀ hh e subs, scrape_expansion hh e = Some subs → s ∈ subs →
              s = e ∨ ∃ eo, hh !! e = Some eo ∧ s ∈ children_of eo)
      as Hother.
    { intros hh e subs Hsubs Hin.
      destruct (scrape_expansion_elem hh e subs Hsubs s Hin)
        as [_ [->|(eo & Heo & Hchild & _)]]; [by left|].
      right. by exists eo. }
    repeat (simplify_option_eq || case_match);
      try (by destruct (Hsame _ _ ltac:(eassumption) Hs eq_refl); auto);
      destruct (Hother _ _ _ ltac:(eassumption) Hs) as [->|(eo & Heo & Hc)];
      [by auto | by do 4 right; eexists _, _].
  - simplify_eq. unfold children_of.
    destruct (body o); try (by apply elem_of_nil in Hs);
      apply list_elem_of_filter in Hs as [_ Hs]; auto.
  - simplify_eq. apply list_elem_of_singleton in Hs as ->. auto.
  - simplify_eq. apply list_elem_of_singleton in Hs as ->. auto.
Qed.

(** What the dispatcher is given to upsert.  When the next service is the
    indexer, nothing: the merged item is [None] and the store is as it was.
    When it is any other service, the merged item is the routed item or the
    existing one, never [None]. *)
Theorem merged_item_by_service
  (h : Heap) (existing_item : option ref) (emitted_by : Service) (item : ref)
  (h' : Heap) (updated_item : option ref) (next_service : Service)
  (items_to_submit : list ref) :
  process_event h existing_item emitted_by item
    = Some (h', (updated_item, Some next_service, items_to_submit)) →
  (next_service = TraktIndexer → updated_item = None ∧ h' = h)
  ∧ (next_service ≠ TraktIndexer →
     updated_item = Some item ∨ (updated_item = existing_item
                                 ∧ is_Some existing_item)).
Proof.
  unfold process_event, no_further_processing. intros Hrun.
  destruct (h !! item) as [o|]; simpl in Hrun; [|done].
  destruct (select_branch emitted_by (state h item));
    repeat (simplify_option_eq || case_match);
    (split; [intros ?; try done | intros ?; try done]); eauto.
Qed.

(** The stages that need no decision.  For an emitter that is neither a
    source nor the indexer: a scraped item goes to the downloader and a
    symlinked item to the library updater, each as the single submission
    and as the merged item; a completed item ends the processing.  The
    store is not written. *)
Theorem linear_stages
  (h : Heap) (existing_item : option ref) (emitted_by : Service) (item : ref)
  (o : MediaItem) :
  h !! item = Some o →
  emitted_by ∉ source_services →
  emitted_by ≠ TraktIndexer →
  (state h item = Scraped →
     process_event h existing_item emitted_by item
       = Some (h, (Some item, Some Downloader, [item])))
  ∧ (state h item = Symlinked →
     process_event h existing_item emitted_by item
       = Some (h, (Some item, Some PlexUpdater, [item])))
  ∧ (state h item = Completed →
     process_event h existing_item emitted_by item
       = Some (h, (None, None, []))).
Proof.
  intros Hitem Hsrc Hidx. unfold process_event. rewrite Hitem. simpl.
  rewrite (select_branch_other_emitter _ _ Hsrc Hidx).
  repeat split; by intros ->.
Qed.

End RouterInvariants.

(** The router names five services and no other. *)
Theorem next_service_range `{Collaborators}
  (h : Heap) (existing_item : option ref) (emitted_by : Service) (item : ref)
  (h' : Heap) (updated_item : option ref) (next_service : Service)
  (items_to_submit : list ref) :
  process_event h existing_item emitted_by item
    = Some (h', (updated_item, Some next_service, items_to_submit)) →
  next_service ∈ [TraktIndexer; Scraping; Downloader; Symlinker; PlexUpdater].
Proof.
  unfold process_event, no_further_processing. intros Hrun.
  destruct (h !! item) as [o|]; simpl in Hrun; [|done].
  destruct (select_branch emitted_by (state h item));
    repeat (simplify_option_eq || case_match);
    rewrite !elem_of_cons; auto 6.
Qed.

(** * Further properties of the program *)

Section DispatcherInvariants.
Context `{Collaborators} `{ItemGraph}.

Lemma same_registry_validate (p p' : ProgramState) :
  same_registry p p' → validate p' = validate p.
Proof. intros (Hr & Hi & Hp & Hl). unfold validate. by rewrite Hr, Hi, Hp, Hl. Qed.

Lemma same_registry_refl (p : ProgramState) : same_registry p p.
Proof. by repeat split. Qed.

Lemma same_registry_trans (p1 p2 p3 : ProgramState) :
  same_registry p1 p2 → same_registry p2 p3 → same_registry p1 p3.
Proof.
  intros (? & ? & ? & ?) (? & ? & ? & ?). repeat split; congruence.
Qed.

Lemma submit_items_effect (next_service : option Service)
  (items_to_submit : list ref) (p p' : ProgramState) :
  submit_items next_service items_to_submit p = Some p' →
  event_queue p' = event_queue p
  ∧ store p' = store p
  ∧ media_items p' = media_items p
  ∧ same_registry p p'
  ∧ ∃ jobs, executor p' = executor p ++ jobs
            ∧ ∀ j, j ∈ jobs →
                ∃ s r, j = (s, Some r) ∧ next_service = Some s
                       ∧ r ∈ items_to_submit.
Proof.
  revert p. induction items_to_submit as [|r rest IH]; intros p Hrun;
    simpl in Hrun.
  - injection Hrun as <-. do 3 (split; [done|]).
    split; [apply same_registry_refl|]. exists [].
    split; [by rewrite app_nil_r|]. intros j Hj. by apply elem_of_nil in Hj.
  - destruct (store p !! r) as [o|]; simpl in Hrun; [|done].
    destruct (is_Season o && bool_decide (next_service = Some Scraping)
              && bool_decide (3 ≤ scraped_times o)).
    + destruct (IH p Hrun) as (Hq & Hs & Hm & Hreg & jobs & Hexec & Hjobs).
      do 4 (split; [done|]). exists jobs. split; [done|].
      intros j Hj. destruct (Hjobs j Hj) as (s & r' & Hj' & Hs' & Hin).
      exists s, r'. do 2 (split; [done|]). by right.
    + unfold _submit_job in Hrun.
      destruct next_service as [s|]; simpl in Hrun; [|done].
      destruct (services p !! s); simpl in Hrun; [|done].
      destruct (IH _ Hrun) as (Hq & Hs & Hm & Hreg & jobs & Hexec & Hjobs).
      do 4 (split; [done|]). exists ((s, Some r) :: jobs). split.
      * rewrite Hexec. simpl. by rewrite <- app_assoc.
      * intros j Hj. apply elem_of_cons in Hj as [->|Hj].
        -- exists s, r. do 2 (split; [done|]). by left.
        -- destruct (Hjobs j Hj) as (s' & r' & Hj' & Heq & Hin).
           exists s', r'. do 2 (split; [done|]). by right.
Qed.

Lemma run_iteration_step (p p' : ProgramState) :
  run_iteration p = Some p' →
  p' = p
  ∨ ∃ event q,
      validate p = true ∧ event_queue p = event :: q
      ∧ event_queue p' = q
      ∧ same_registry p p'
      ∧ ∃ jobs, executor p' = executor p ++ jobs
                ∧ ∀ j, j ∈ jobs →
                    ∃ s r, j = (s, Some r)
                      ∧ s ∈ [TraktIndexer; Scraping; Downloader; Symlinker;
                             PlexUpdater].
Proof.
  unfold run_iteration.
  destruct (validate p) eqn:Hvalid; simpl; [|intros [= <-]; by left].
  destruct (event_queue p) as [|event q] eqn:Hqueue; [intros [= <-]; by left|].
  intros Hrun. right. exists event, q. split; [done|]. split; [done|].
  destruct (store p !! item event) as [o|]; simpl in Hrun; [|done].
  destruct (process_event (store p) (get (media_items p) (item_id o))
              (emitted_by event) (item event))
    as [[h [[updated_item next_service] items_to_submit]]|] eqn:Hrouter;
    simpl in Hrun; [|done].
  apply submit_items_effect in Hrun
    as (Hq & _ & _ & Hreg & jobs & Hexec & Hjobs).
  assert (∀ j, j ∈ jobs →
            ∃ s r, j = (s, Some r)
              ∧ s ∈ [TraktIndexer; Scraping; Downloader; Symlinker;
                     PlexUpdater]) as Hrange.
  { intros j Hj. destruct (Hjobs j Hj) as (s & r & -> & -> & _).
    exists s, r. split; [done|]. revert Hrouter.
    unfold process_event, no_further_processing.
    destruct (store p !! item event) as [o'|]; simpl; [|done].
    destruct (select_branch (emitted_by event)
                (state (store p) (item event)));
      intros Hrouter;
      repeat (simplify_option_eq || case_match);
      rewrite !elem_of_cons; auto 6. }
  destruct updated_item as [u|]; [destruct (upsert _ _ u) as [c h']|];
    simpl in *; (split; [done|]); (split; [done|]);
    exists jobs; done.
Qed.

(** One turn of the dispatcher.  With an invalid registry or an empty
    queue it changes nothing; in particular an event stays queued while
    the registry is invalid.  Otherwise, when the turn completes, exactly
    the first event has left the queue, the registry is as before, and the
    pool has only received new calls, each on an item and each for one of
    the five services that the router names. *)
Theorem run_iteration_turn (p : ProgramState) :
  (validate p = false ∨ event_queue p = [] → run_iteration p = Some p)
  ∧ ∀ event q p',
      validate p = true → event_queue p = event :: q →
      run_iteration p = Some p' →
      event_queue p' = q
      ∧ same_registry p p'
      ∧ ∃ jobs, executor p' = executor p ++ jobs
                ∧ ∀ j, j ∈ jobs →
                    ∃ s r, j = (s, Some r)
                      ∧ s ∈ [TraktIndexer; Scraping; Downloader; Symlinker;
                             PlexUpdater].
Proof.
  split.
  - unfold run_iteration. intros [-> | Hq]; [done|].
    rewrite Hq. by destruct (validate p).
  - intros event q p' Hvalid Hqueue Hrun.
    destruct (run_iteration_step p p' Hrun)
      as [-> | (event' & q' & _ & Hqueue' & Hq & Hreg & Hjobs)].
    + revert Hrun. unfold run_iteration. rewrite Hvalid, Hqueue. simpl.
      intros Hrun.
      destruct (store p !! item event) as [o|]; simpl in Hrun; [|done].
      destruct (process_event (store p) (get (media_items p) (item_id o))
                  (emitted_by event) (item event))
        as [[h [[updated_item next_service] items_to_submit]]|];
        simpl in Hrun; [|done].
      apply submit_items_effect in Hrun as (Hq & _).
      destruct updated_item as [u|]; [destruct (upsert _ _ u) as [c h']|];
        simpl in Hq; rewrite Hqueue in Hq;
        apply (f_equal length) in Hq; simpl in Hq; lia.
    + rewrite Hqueue in Hqueue'. injection Hqueue' as <- <-. done.
Qed.

(** Any number of turns.  The pool only receives calls: those it had are
    still there, in place.  Each turn takes at most one event and the loop
    adds none.  The registry does not change, so a program that is invalid
    stays as it is however long the loop runs. *)
Theorem run_invariants (turns : nat) (p p' : ProgramState) :
  run turns p = Some p' →
  executor p `prefix_of` executor p'
  ∧ (length (event_queue p') ≤ length (event_queue p))%nat
  ∧ (length (event_queue p) ≤ length (event_queue p') + turns)%nat
  ∧ same_registry p p'
  ∧ (validate p = false → p' = p).
Proof.
  revert p. induction turns as [|n IH]; intros p Hrun; simpl in Hrun.
  - injection Hrun as <-.
    split; [done|]. split; [lia|]. split; [lia|].
    split; [apply same_registry_refl|done].
  - destruct (run_iteration p) as [p1|] eqn:Hturn; simpl in Hrun; [|done].
    destruct (IH p1 Hrun) as (Hpre & Hle & Hge & Hreg & Hidle).
    destruct (run_iteration_step p p1 Hturn) as [-> | Hstep].
    + split; [done|]. split; [done|]. split; [lia|]. done.
    + destruct Hstep
        as (event & q & Hvalid & Hq & Hq1 & Hreg1 & jobs & Hexec & _).
      rewrite Hq. rewrite Hq1 in Hle, Hge. simpl.
      split; [|split; [lia|split; [lia|split]]].
      * etrans; [|exact Hpre]. rewrite Hexec. by apply prefix_app_r.
      * by eapply same_registry_trans.
      * intros Hinvalid. congruence.
Qed.

(** The two thresholds together.  A season that was scraped exactly three
    times is still routed to the scraper as a whole (the router expands a
    season into its episodes from four times on), and the dispatcher drops
    it (from three times on): the turn submits nothing for it. *)
Theorem season_scraped_three_times_is_dropped
  (p : ProgramState) (item : ref) (o : MediaItem) :
  store p !! item = Some o →
  is_Season o = true →
  scraped_times o = 3 →
  can_we_scrape (store p) item = true →
  scrape_expansion (store p) item = Some [item]
  ∧ submit_items (Some Scraping) [item] p = Some p.
Proof.
  intros Hitem Hseason Htimes Hcan. split.
  - unfold scrape_expansion. rewrite Hitem. simpl. rewrite Hcan.
    unfold is_Season in Hseason.
    destruct (body o); try discriminate.
    rewrite bool_decide_eq_false_2 by lia. done.
  - simpl. rewrite Hitem. simpl. rewrite Hseason, Htimes. done.
Qed.

(** A completed item is inert: when the first event carries an item in
    state [Completed] and comes neither from a source nor from the indexer,
    the turn takes the event off the queue and does nothing else: no
    upsert, no call to the pool. *)
Theorem completed_event_is_inert
  (p : ProgramState) (event : Event) (q : list Event) (o : MediaItem) :
  validate p = true →
  event_queue p = event :: q →
  store p !! item event = Some o →
  emitted_by event ∉ source_services →
  emitted_by event ≠ TraktIndexer →
  state (store p) (item event) = Completed →
  run_iteration p = Some (set_event_queue q p).
Proof.
  intros Hvalid Hqueue Hitem Hsrc Hidx Hstate.
  unfold run_iteration. rewrite Hvalid, Hqueue. simpl.
  rewrite Hitem. simpl.
  unfold process_event. rewrite Hitem. simpl.
  rewrite (select_branch_other_emitter _ _ Hsrc Hidx), Hstate. simpl.
  reflexivity.
Qed.

Lemma drain_empty (q : list Event) : drain q = [].
Proof. induction q; [done|]. simpl. done. Qed.

(** [clear_queue] leaves an empty queue and touches nothing else; after
    it, the loop does nothing for as long as no event arrives. *)
Theorem clear_queue_quiets (p : ProgramState) (turns : nat) :
  clear_queue p = set_event_queue [] p
  ∧ run turns (clear_queue p) = Some (clear_queue p).
Proof.
  assert (clear_queue p = set_event_queue [] p) as Hclear
    by (unfold clear_queue; by rewrite drain_empty).
  split; [done|]. rewrite Hclear.
  induction turns as [|n IH]; [done|].
  simpl. unfold run_iteration at 1. simpl.
  destruct (validate (set_event_queue [] p)); simpl; exact IH.
Qed.

Lemma retry_library_queue (incomplete : list ref) (p : ProgramState) :
  _retry_library incomplete p
  = set_event_queue (event_queue p ++ (mkEvent Program <$> incomplete)) p.
Proof.
  unfold _retry_library. revert p.
  induction incomplete as [|r rest IH]; intros p; simpl.
  - rewrite app_nil_r. by destruct p.
  - rewrite IH. simpl. unfold set_event_queue. simpl.
    by rewrite <- app_assoc.
Qed.

(** The events that the program makes itself.  [_retry_library] queues one
    event per incomplete item, in order, behind the events already queued,
    and [add_to_queue] queues one for a media item and refuses anything
    else; both leave the rest of the program alone.  All these events carry
    the emitter [Program], which is not a source: the router sends such an
    event to the indexer exactly when its item is in state [Unknown]. *)
Theorem own_events (p : ProgramState) :
  (∀ incomplete,
     _retry_library incomplete p
     = set_event_queue (event_queue p ++ (mkEvent Program <$> incomplete)) p)
  ∧ (∀ r, add_to_queue (YieldItem r) p
          = (true, set_event_queue (event_queue p ++ [mkEvent Program r]) p))
  ∧ add_to_queue YieldOther p = (false, p)
  ∧ (∀ st, select_branch Program st = ToIndexer ↔ st = Unknown).
Proof.
  split; [intros; apply retry_library_queue|].
  split; [done|]. split; [done|].
  intros st. by destruct st.
Qed.

Lemma events_of_elem (service : Service) (ys : list Yield) (ev : Event) :
  ev ∈ events_of service ys
  ↔ emitted_by ev = service ∧ YieldItem (item ev) ∈ ys.
Proof.
  unfold events_of. rewrite list_elem_of_omap. split.
  - intros ([r|] & Hin & Heq); [|done]. injection Heq as <-. done.
  - intros [<- Hin]. exists (YieldItem (item ev)). split; [done|].
    by destruct ev.
Qed.

Lemma events_of_length (service : Service) (ys : list Yield) :
  (length (events_of service ys) ≤ length ys)%nat.
Proof.
  induction ys as [|[r|] ys IH]; simpl; [lia| |].
  - change (events_of service (YieldItem r :: ys))
      with (mkEvent service r :: events_of service ys). simpl. lia.
  - change (events_of service (YieldOther :: ys))
      with (events_of service ys). lia.
Qed.

(** The callback on any result, successful or not.  The events already
    queued keep their place, and behind them comes exactly one event per
    media item that the call yielded, in the order of the yields and tagged
    with the service; a yield that is not a media item gives no event.  The
    callback returns unless the run raised something that is a
    [BaseException] only, which leaves it after those events were queued.
    It writes to no item itself, and nothing else in the program
    changes. *)
Theorem callback_enqueues_items
  (future : FutureResult) (service : Service) (p : ProgramState) :
  ((_process_future_item future service p).1 = Returns
   ↔ ending future ≠ RaisesBaseException)
  ∧ (_process_future_item future service p).2
    = set_media (media_items p) (writes future (store p))
        (set_event_queue
           (event_queue p ++ events_of service (yields future)) p)
  ∧ (∀ ev, ev ∈ events_of service (yields future)
           ↔ emitted_by ev = service ∧ YieldItem (item ev) ∈ yields future)
  ∧ (∀ r ys, events_of service (YieldItem r :: ys)
             = mkEvent service r :: events_of service ys)
  ∧ (∀ ys, events_of service (YieldOther :: ys) = events_of service ys)
  ∧ (length (events_of service (yields future))
     ≤ length (yields future))%nat.
Proof.
  split; [|split].
  - unfold _process_future_item. by destruct (ending future).
  - unfold _process_future_item. rewrite enqueue_yields_events.
    by destruct (ending future).
  - split; [intros; apply events_of_elem|].
    split; [done|]. split; [done|].
    apply events_of_length.
Qed.

Lemma instances_lookup (init : Service → bool) (ks : list Service)
  (k : Service) :
  instances init ks !! k
  = if bool_decide (k ∈ ks) then Some (mkInstance (init k)) else None.
Proof.
  induction ks as [|k' ks IH].
  - change (instances init []) with (∅ : gmap Service ServiceInstance).
    by rewrite lookup_empty.
  - change (instances init (k' :: ks))
      with (<[k' := mkInstance (init k')]> (instances init ks)).
    destruct (decide (k = k')) as [->|Hne].
    + rewrite lookup_insert_eq, bool_decide_eq_true_2; [done|by left].
    + rewrite lookup_insert_ne by done. rewrite IH.
      destruct (decide (k ∈ ks)) as [Hin|Hout].
      * rewrite !bool_decide_eq_true_2; [done|by right|done].
      * rewrite !bool_decide_eq_false_2; [done| |done].
        rewrite elem_of_cons. intros [?|?]; done.
Qed.

(** After [initialize_services] every service that the router can name is
    registered, so handing a submission to the pool never fails for want
    of the service, and appends exactly that call.  The class [Program]
    itself is not registered, and neither is the absent service [None]. *)
Theorem initialized_registry_serves_router
  (init : Service → bool) (p : ProgramState) (service : Service)
  (it : option ref) :
  let p0 := initialize_services init p in
  (service ∈ [TraktIndexer; Scraping; Downloader; Symlinker; PlexUpdater] →
     _submit_job (Some service) it p0
     = Some (set_executor (executor p0 ++ [(service, it)]) p0))
  ∧ _submit_job (Some Program) it p0 = None
  ∧ _submit_job None it p0 = None.
Proof.
  intros p0. unfold _submit_job, services. simpl.
  split; [|split; [|done]].
  - intros Hin.
    assert (is_Some ((instances init
                        [Scraping; Symlinker; PlexUpdater; Downloader]
                      ∪ instances init
                          [Overseerr; PlexWatchlist; Listrr; Mdblist;
                           TraktContent]
                      ∪ instances init [TraktIndexer]
                      ∪ instances init [SymlinkLibrary; PlexLibrary])
                     !! service)) as [i Hi].
    { rewrite !lookup_union_is_Some, !instances_lookup.
      rewrite !elem_of_cons, elem_of_nil in Hin.
      destruct Hin as [->|[->|[->|[->|[->|[]]]]]]; vm_compute; eauto. }
    by rewrite Hi.
  - assert ((instances init
               [Scraping; Symlinker; PlexUpdater; Downloader]
             ∪ instances init
                 [Overseerr; PlexWatchlist; Listrr; Mdblist; TraktContent]
             ∪ instances init [TraktIndexer]
             ∪ instances init [SymlinkLibrary; PlexLibrary])
            !! Program = None) as ->; [|done].
    rewrite !lookup_union_None, !instances_lookup. by vm_compute.
Qed.

(** Which constructors decide that the program may run.  After
    [initialize_services], [validate] holds exactly when one of the five
    content services, one of the two libraries, the indexer, and all of
    scraper, symlinker, updater and downloader are initialized. *)
Theorem validate_after_initialize (init : Service → bool) (p : ProgramState) :
  validate (initialize_services init p)
  = (init Overseerr || init PlexWatchlist || init Listrr || init Mdblist
     || init TraktContent)
    && (init SymlinkLibrary || init PlexLibrary)
    && init TraktIndexer
    && (init Scraping && init Symlinker && init PlexUpdater
        && init Downloader).
Proof.
  unfold validate. simpl. vm_compute.
  repeat (match goal with
          | |- context [if init ?s then _ else _] => destruct (init s)
          end; simpl);
    reflexivity.
Qed.

End DispatcherInvariants.

(** * Dictionaries *)

Section DictFacts.
Context {V : Type}.
Implicit Types (d : list (string * V)) (k : string) (v : V).

Lemma string_eqb_true (a b : string) : String.eqb a b = true ↔ a = b.
Proof. apply String.eqb_eq. Qed.

Lemma string_eqb_false (a b : string) : String.eqb a b = false ↔ a ≠ b.
Proof. apply String.eqb_neq. Qed.

Lemma dict_get_set_eq d k v : dict_get k (dict_set k v d) = Some v.
Proof.
  induction d as [|[k' v'] d IH]; csimpl.
  - by rewrite String.eqb_refl.
  - destruct (String.eqb k' k) eqn:Hk; csimpl.
    + by rewrite String.eqb_refl.
    + by rewrite Hk.
Qed.

Lemma dict_get_set_ne d k k' v :
  k ≠ k' → dict_get k' (dict_set k v d) = dict_get k' d.
Proof.
  intros Hne. induction d as [|[k0 v0] d IH]; csimpl.
  - by rewrite (proj2 (string_eqb_false k k')).
  - destruct (String.eqb k0 k) eqn:Hk; csimpl.
    + apply string_eqb_true in Hk as ->.
      by rewrite (proj2 (string_eqb_false k k')).
    + by rewrite IH.
Qed.

Lemma dict_get_None d k : dict_get k d = None ↔ k ∉ d.*1.
Proof.
  induction d as [|[k' v'] d IH]; csimpl.
  - split; [intros _; apply not_elem_of_nil|done].
  - rewrite not_elem_of_cons. destruct (String.eqb k' k) eqn:Hk.
    + apply string_eqb_true in Hk as ->. split; [done|]. by intros [? _].
    + apply string_eqb_false in Hk. rewrite IH. split; [|tauto].
      intros ?. split; [congruence|done].
Qed.

Lemma dict_get_Some_elem d k v : dict_get k d = Some v → (k, v) ∈ d.
Proof.
  induction d as [|[k' v'] d IH]; csimpl; [done|].
  destruct (String.eqb k' k) eqn:Hk.
  - apply string_eqb_true in Hk as ->. intros [= ->]. by left.
  - intros Hget. right. by apply IH.
Qed.

Lemma dict_get_elem d k v : NoDup d.*1 → (k, v) ∈ d → dict_get k d = Some v.
Proof.
  induction d as [|[k' v'] d IH]; csimpl; intros Hnd Hin.
  - by apply elem_of_nil in Hin.
  - apply NoDup_cons in Hnd as [Hk' Hnd].
    apply elem_of_cons in Hin as [[= -> ->]|Hin].
    + by rewrite String.eqb_refl.
    + destruct (String.eqb k' k) eqn:Hk; [|by apply IH].
      apply string_eqb_true in Hk as ->. exfalso. apply Hk'.
      apply list_elem_of_fmap. by exists (k, v).
Qed.

Lemma dict_set_keys d k v :
  (dict_set k v d).*1 = if bool_decide (k ∈ d.*1) then d.*1 else d.*1 ++ [k].
Proof.
  induction d as [|[k' v'] d IH]; csimpl.
  - reflexivity.
  - destruct (String.eqb k' k) eqn:Hk; csimpl.
    + apply string_eqb_true in Hk as ->.
      rewrite bool_decide_eq_true_2; [done|by left].
    + apply string_eqb_false in Hk. rewrite IH.
      destruct (decide (k ∈ d.*1)) as [Hin|Hout].
      * rewrite !bool_decide_eq_true_2; [done|by right|done].
      * rewrite !bool_decide_eq_false_2; [done| |done].
        rewrite elem_of_cons. intros [?|?]; [congruence|done].
Qed.

Lemma dict_set_NoDup d k v : NoDup d.*1 → NoDup (dict_set k v d).*1.
Proof.
  intros Hnd. rewrite dict_set_keys. case_bool_decide; [done|].
  apply NoDup_app. split; [done|]. split.
  - intros x Hx Hk. apply list_elem_of_singleton in Hk as ->. done.
  - apply NoDup_singleton.
Qed.

Lemma dict_set_elem d k v k' v' :
  (k', v') ∈ dict_set k v d → (k' = k ∧ v' = v) ∨ (k', v') ∈ d.
Proof.
  induction d as [|[k0 v0] d IH]; csimpl.
  - intros Hin. apply list_elem_of_singleton in Hin as [= -> ->]. by left.
  - destruct (String.eqb k0 k) eqn:Hk.
    + rewrite !elem_of_cons. intros [[= -> ->]|Hin]; [by left|].
      right. by right.
    + rewrite !elem_of_cons. intros [Heq|Hin]; [right; by left|].
      destruct (IH Hin) as [?|?]; [by left|]. right. by right.
Qed.

Lemma dict_set_length d k v :
  length (dict_set k v d)
  = if bool_decide (k ∈ d.*1) then length d else S (length d).
Proof.
  rewrite <- (length_fmap fst (dict_set k v d)), dict_set_keys.
  case_bool_decide; rewrite ?length_app, length_fmap; csimpl; lia.
Qed.

End DictFacts.

Lemma dict_set_fresh {V} (d : list (string * V)) (k : string) (v : V) :
  k ∉ d.*1 → dict_set k v d = d ++ [(k, v)].
Proof.
  induction d as [|[k' v'] d IH]; csimpl; [done|].
  rewrite not_elem_of_cons. intros [Hne Hout].
  rewrite (proj2 (String.eqb_neq k' k)) by congruence.
  by rewrite IH.
Qed.

(** * Properties of the scraped torrents *)

Module ParserProperties.
Import Parser.
Section Torrents.
Context {ParsedMediaItem : Type}.
Abbreviation Torrent := (Torrent ParsedMediaItem).
Implicit Types (t : Torrent) (l : list Torrent).

(** Ranks descend along the list. *)
Abbreviation descending := (StronglySorted (λ a b : Torrent, rank _ b ≤ rank _ a)).

Lemma insert_by_rank_perm t l : insert_by_rank _ t l ≡ₚ t :: l.
Proof.
  induction l as [|x l IH]; simpl; [done|].
  case_match; [done|]. rewrite IH. apply Permutation_swap.
Qed.

Lemma insert_by_rank_descending t l :
  descending l → descending (insert_by_rank _ t l).
Proof.
  induction 1 as [|x l Hl IH Hx]; simpl.
  - by repeat constructor.
  - destruct (rank _ x <=? rank _ t) eqn:Hle.
    + apply Z.leb_le in Hle. constructor; [by constructor|].
      constructor; [done|].
      eapply Forall_impl; [exact Hx|]. simpl. intros; lia.
    + apply Z.leb_gt in Hle. constructor; [done|].
      rewrite insert_by_rank_perm. constructor; [lia|done].
Qed.

Lemma insert_by_rank_filter t l (r : Z) :
  filter (λ x, rank _ x = r) (insert_by_rank _ t l)
  = filter (λ x, rank _ x = r) (t :: l).
Proof.
  induction l as [|x l IH]; simpl; [done|].
  destruct (rank _ x <=? rank _ t) eqn:Hle; [done|].
  apply Z.leb_gt in Hle.
  rewrite (filter_cons _ x), IH, !filter_cons.
  repeat case_decide; try done; lia.
Qed.

Lemma sorted_by_rank_facts l :
  sorted_by_rank _ l ≡ₚ l
  ∧ descending (sorted_by_rank _ l)
  ∧ ∀ r : Z, filter (λ x, rank _ x = r) (sorted_by_rank _ l)
             = filter (λ x, rank _ x = r) l.
Proof.
  induction l as [|t l (Hperm & Hsorted & Hstable)]; simpl.
  - split; [done|]. split; [constructor|done].
  - split; [by rewrite insert_by_rank_perm, Hperm|].
    split; [by apply insert_by_rank_descending|].
    intros r. rewrite insert_by_rank_filter, !filter_cons, Hstable. done.
Qed.

Lemma descending_head_max x l y :
  descending (x :: l) → y ∈ x :: l → rank _ y ≤ rank _ x.
Proof.
  intros Hs Hy. apply StronglySorted_inv in Hs as [_ Hx].
  apply elem_of_cons in Hy as [->|Hy]; [lia|].
  by apply (proj1 (Forall_forall _ _) Hx).
Qed.

(** Two descending lists that agree, rank by rank, on their torrents of
    that rank are the same list: a stable sort has one result. *)
Lemma descending_stable_unique l1 l2 :
  descending l1 → descending l2 →
  (∀ r : Z, filter (λ x, rank _ x = r) l1 = filter (λ x, rank _ x = r) l2) →
  l1 = l2.
Proof.
  revert l2. induction l1 as [|x l1 IH]; intros l2 Hs1 Hs2 Hsame.
  - destruct l2 as [|y l2]; [done|].
    specialize (Hsame (rank _ y)). rewrite filter_cons_True in Hsame by done.
    done.
  - destruct l2 as [|y l2].
    { specialize (Hsame (rank _ x)).
      rewrite filter_cons_True in Hsame by done. done. }
    assert (x ∈ y :: l2) as Hx.
    { assert (x ∈ filter (λ z, rank _ z = rank _ x) (y :: l2)) as Hin
        by (rewrite <- Hsame, filter_cons_True by done; by left).
      by apply list_elem_of_filter in Hin as [_ Hin]. }
    assert (y ∈ x :: l1) as Hy.
    { assert (y ∈ filter (λ z, rank _ z = rank _ y) (x :: l1)) as Hin
        by (rewrite Hsame, filter_cons_True by done; by left).
      by apply list_elem_of_filter in Hin as [_ Hin]. }
    pose proof (descending_head_max _ _ _ Hs1 Hy) as Hyx.
    pose proof (descending_head_max _ _ _ Hs2 Hx) as Hxy.
    assert (rank _ x = rank _ y) as Hrank by lia.
    pose proof (Hsame (rank _ x)) as Hhead.
    rewrite !filter_cons_True in Hhead by done.
    injection Hhead as -> Htail.
    f_equal. apply IH.
    + by apply StronglySorted_inv in Hs1 as [? _].
    + by apply StronglySorted_inv in Hs2 as [? _].
    + intros r. specialize (Hsame r). rewrite !filter_cons in Hsame.
      case_decide; [by injection Hsame|done].
Qed.

(** The sort of the torrents by rank, in reverse: the same torrents, with
    ranks descending and torrents of equal rank in the order they had; and
    it is the only list with these two properties. *)
Theorem sorted_by_rank_stable l :
  sorted_by_rank _ l ≡ₚ l
  ∧ descending (sorted_by_rank _ l)
  ∧ (∀ r : Z, filter (λ x, rank _ x = r) (sorted_by_rank _ l)
              = filter (λ x, rank _ x = r) l)
  ∧ ∀ l', descending l' →
          (∀ r : Z, filter (λ x, rank _ x = r) l'
                    = filter (λ x, rank _ x = r) l) →
          l' = sorted_by_rank _ l.
Proof.
  destruct (sorted_by_rank_facts l) as (Hperm & Hsorted & Hstable).
  do 3 (split; [done|]).
  intros l' Hl' Hsame. apply descending_stable_unique; [done|done|].
  intros r. by rewrite Hsame, Hstable.
Qed.

Lemma keyed_keys (d : ParsedTorrents ParsedMediaItem) :
  keyed_by_infohash _ d → d.*1 = infohash _ <$> d.*2.
Proof.
  intros [_ Hkey]. induction d as [|[k t] d IH]; csimpl; [done|].
  rewrite (Hkey k t) by (by left). f_equal. apply IH.
  intros k' t' Hin. apply Hkey. by right.
Qed.

Lemma rebuild_fresh (ts : list Torrent)
  (acc : ParsedTorrents ParsedMediaItem) :
  NoDup (acc.*1 ++ (infohash _ <$> ts)) →
  foldl (λ a t, dict_set (infohash _ t) t a) acc ts
  = acc ++ ((λ t, (infohash _ t, t)) <$> ts).
Proof.
  revert acc. induction ts as [|t ts IH]; intros acc Hnd; csimpl.
  - by rewrite app_nil_r.
  - assert (infohash _ t ∉ acc.*1) as Hfresh.
    { apply NoDup_app in Hnd as (_ & Hdisj & _). intros Hin.
      apply (Hdisj _ Hin). by left. }
    rewrite dict_set_fresh by done. rewrite IH.
    + by rewrite <- app_assoc.
    + rewrite fmap_app. csimpl. rewrite <- app_assoc. done.
Qed.

(** [add] stores a torrent under its [infohash]: looking that hash up
    gives the torrent back, other hashes are not affected, a torrent with a
    known hash replaces the old one in place and a new one makes the
    dictionary one longer.  Every torrent stays stored under its own
    hash. *)
Theorem add_lookup (torrent : Torrent) (d : ParsedTorrents ParsedMediaItem) :
  dict_get (infohash _ torrent) (add _ torrent d) = Some torrent
  ∧ (∀ k, k ≠ infohash _ torrent →
          dict_get k (add _ torrent d) = dict_get k d)
  ∧ __len__ _ (add _ torrent d)
    = (if dict_get (infohash _ torrent) d is Some _
       then __len__ _ d else S (__len__ _ d))
  ∧ (keyed_by_infohash _ d → keyed_by_infohash _ (add _ torrent d)).
Proof.
  unfold add, __len__. split; [apply dict_get_set_eq|].
  split; [intros k Hk; by apply dict_get_set_ne|]. split.
  - rewrite dict_set_length.
    destruct (dict_get (infohash _ torrent) d) as [t'|] eqn:Hget.
    + rewrite bool_decide_eq_true_2; [done|].
      apply dict_get_Some_elem in Hget. apply list_elem_of_fmap.
      by exists (infohash _ torrent, t').
    + apply dict_get_None in Hget. by rewrite bool_decide_eq_false_2.
  - intros [Hnd Hkey]. split; [by apply dict_set_NoDup|].
    intros k t Hin. apply dict_set_elem in Hin as [[-> ->]|Hin]; [done|].
    by apply Hkey.
Qed.

(** [sort] on a dictionary whose torrents are stored under their own
    hashes: the entries are those of the stably sorted values, so the
    ranks descend, every hash still leads to its torrent, and the size is
    unchanged. *)
Theorem sort_keeps_entries (d : ParsedTorrents ParsedMediaItem) :
  keyed_by_infohash _ d →
  sort _ d = (λ t, (infohash _ t, t)) <$> sorted_by_rank _ (__iter__ _ d)
  ∧ descending (__iter__ _ (sort _ d))
  ∧ __iter__ _ (sort _ d) ≡ₚ __iter__ _ d
  ∧ (∀ k, dict_get k (sort _ d) = dict_get k d)
  ∧ __len__ _ (sort _ d) = __len__ _ d
  ∧ keyed_by_infohash _ (sort _ d).
Proof.
  intros Hkeyed. pose proof Hkeyed as [Hnd Hkey].
  destruct (sorted_by_rank_facts (__iter__ _ d)) as (Hperm & Hsorted & _).
  assert (sort _ d
          = (λ t, (infohash _ t, t)) <$> sorted_by_rank _ (__iter__ _ d))
    as Hsort.
  { unfold sort. rewrite rebuild_fresh; [done|]. simpl.
    rewrite Hperm. unfold __iter__. by rewrite <- keyed_keys. }
  assert (__iter__ _ (sort _ d) = sorted_by_rank _ (__iter__ _ d)) as Hvalues.
  { rewrite Hsort. unfold __iter__ at 1. rewrite <- list_fmap_compose.
    simpl. apply list_fmap_id. }
  assert ((sort _ d).*1 ≡ₚ d.*1) as Hkeys.
  { rewrite Hsort, <- list_fmap_compose. simpl.
    rewrite (keyed_keys d Hkeyed). by rewrite Hperm. }
  assert (∀ k t, (k, t) ∈ sort _ d ↔ (k, t) ∈ d) as Helem.
  { intros k t. rewrite Hsort, list_elem_of_fmap. split.
    - intros (t' & [= -> ->] & Hin). rewrite Hperm in Hin.
      apply list_elem_of_fmap in Hin as ([k' t''] & -> & Hin).
      simpl. by rewrite <- (Hkey k' t'' Hin).
    - intros Hin. exists t. rewrite (Hkey k t Hin). split; [done|].
      rewrite Hperm. apply list_elem_of_fmap. by exists (k, t). }
  assert (NoDup (sort _ d).*1) as Hnd' by (by rewrite Hkeys).
  split; [done|]. split; [by rewrite Hvalues|].
  split; [by rewrite Hvalues|]. split; [|split].
  - intros k. destruct (dict_get k d) as [t|] eqn:Hget.
    + apply dict_get_elem; [done|]. apply Helem.
      by apply dict_get_Some_elem.
    + apply dict_get_None. rewrite Hkeys. by apply dict_get_None.
  - unfold __len__.
    rewrite <- (length_fmap fst (sort _ d)), <- (length_fmap fst d).
    by rewrite Hkeys.
  - split; [done|]. intros k t Hin. apply Hkey. by apply Helem.
Qed.

End Torrents.
End ParserProperties.

(** * Properties of the Orionoid scraper *)

Module OrionoidProperties.
Import Orionoid.

Lemma validate_true_local (o : Orionoid) (response : Reply UserData) :
  (validate o response).1 = true → locally_valid (settings o).
Proof.
  unfold validate, locally_valid.
  destruct (enabled (settings o)); simpl; [|done].
  destruct (String.length (api_key (settings o)) =? 32)%nat eqn:Hlen;
    simpl; [|done].
  apply Nat.eqb_eq in Hlen.
  destruct (String.eqb (api_key (settings o)) ""); simpl; [done|].
  destruct (timeout (settings o)) as [t|]; [|done].
  destruct (t <=? 0) eqn:Hpos; [done|]. apply Z.leb_gt in Hpos.
  destruct (ratelimit (settings o)) as [rl|]; [|done].
  intros _. repeat split; eauto.
Qed.

Lemma validate_frame (o : Orionoid) (response : Reply UserData) :
  settings (validate o response).2 = settings o
  ∧ is_premium (validate o response).2 = is_premium o
  ∧ initialized (validate o response).2 = initialized o
  ∧ (is_unlimited (validate o response).2 = true →
     is_unlimited o = true
     ∨ ∃ data a, response = Response true data
         ∧ result_status data = Some "success"
         ∧ account data = Some a ∧ package_type a = "unlimited").
Proof.
  unfold validate.
  destruct (enabled (settings o)); simpl; [|by auto].
  destruct (negb _ || _); [by auto|].
  destruct (timeout (settings o)) as [t|]; [|by auto].
  destruct (t <=? 0); [by auto|].
  destruct (ratelimit (settings o)) as [rl|]; [|by auto].
  destruct response as [|is_ok data]; [by auto|].
  destruct is_ok; simpl; [|by auto].
  destruct (result_status data) as [st|] eqn:Hst; [|by auto].
  destruct (String.eqb st "success") eqn:Hsuccess; simpl; [|by auto].
  apply String.eqb_eq in Hsuccess as ->.
  destruct (account data) as [a|] eqn:Ha; [|by auto].
  destruct (String.eqb (package_type a) "unlimited") eqn:Hunl; [|by auto].
  apply String.eqb_eq in Hunl. simpl.
  do 3 (split; [done|]). intros _. right. by exists data, a.
Qed.


(** What an instance tells about how it was made.  An initialized instance
    has settings that pass the local checks (enabled, a key of 32
    characters, a positive timeout, a boolean rate limit).  It is premium
    only if it is initialized and the account was reported active, premium
    and with RealDebrid; unlimited only if the key check answered
    [success] with an unlimited package. *)
Theorem init_sound (s : Settings) (r_validate r_premium : Reply UserData)
  (o : Orionoid) :
  __init__ s r_validate r_premium = Some o →
  settings o = s
  ∧ (initialized o = true → locally_valid s)
  ∧ (is_premium o = true →
     initialized o = true
     ∧ ∃ data a, r_premium = Response true data ∧ account data = Some a
         ∧ status a = "active" ∧ package_premium a = true
         ∧ service_realdebrid a = true)
  ∧ (is_unlimited o = true →
     ∃ data a, r_validate = Response true data
       ∧ result_status data = Some "success"
       ∧ account data = Some a ∧ package_type a = "unlimited").
Proof.
  unfold __init__. intros Hinit.
  pose proof (validate_true_local (mkOrionoid s false false false)
                r_validate) as Hlocal.
  destruct (validate_frame (mkOrionoid s false false false) r_validate)
    as (Hset & Hprem & Hinitd & Hunl).
  destruct (validate (mkOrionoid s false false false) r_validate)
    as [ok o1]. simpl in *.
  destruct ok.
  - destruct (check_premium r_premium) as [premium|] eqn:Hcheck;
      simpl in Hinit; [|done].
    injection Hinit as <-. simpl.
    split; [done|]. split; [intros _; by apply Hlocal|]. split.
    + intros ->. split; [done|].
      unfold check_premium in Hcheck.
      destruct r_premium as [|is_ok data]; [done|].
      destruct is_ok; simpl in Hcheck; [|done].
      destruct (account data) as [a|] eqn:Ha; [|done].
      injection Hcheck as Hcheck.
      apply andb_true_iff in Hcheck as [Hcheck ?].
      apply andb_true_iff in Hcheck as [Hactive ?].
      apply String.eqb_eq in Hactive. exists data, a.
      repeat split; done.
    + intros Htrue. by destruct (Hunl Htrue).
  - injection Hinit as <-.
    split; [done|]. split; [by rewrite Hinitd|].
    split; [by rewrite Hprem|].
    intros Htrue. by destruct (Hunl Htrue).
Qed.


(** The number of results asked for.  A configured [limitcount] of 0
    becomes 5 and one above 200 becomes 200; so for a configured value that
    is not negative the request asks for between 1 and 200 results. *)
Theorem construct_url_limitcount (o : Orionoid) (media_type imdb_id : string)
  (season episode : option Z) :
  dict_get "limitcount"
    (construct_params o media_type imdb_id season episode)
  = Some (VInt (if limitcount (settings o) =? 0 then 5
                else if 200 <? limitcount (settings o) then 200
                else limitcount (settings o)))
  ∧ (0 ≤ limitcount (settings o) →
     ∃ n, dict_get "limitcount"
            (construct_params o media_type imdb_id season episode)
          = Some (VInt n) ∧ 1 ≤ n ≤ 200).
Proof.
  assert (dict_get "limitcount"
            (construct_params o media_type imdb_id season episode)
          = Some (VInt (if limitcount (settings o) =? 0 then 5
                        else if 200 <? limitcount (settings o) then 200
                        else limitcount (settings o)))) as Hget.
  { unfold construct_params.
    destruct (limitcount (settings o) =? 0) eqn:Hzero.
    - apply Z.eqb_eq in Hzero. rewrite Hzero. simpl.
      destruct (is_unlimited o), (String.eqb media_type "show"); reflexivity.
    - destruct (200 <? limitcount (settings o)),
        (is_unlimited o), (String.eqb media_type "show"); reflexivity. }
  split; [done|]. intros Hnonneg. eexists. split; [exact Hget|].
  destruct (limitcount (settings o) =? 0) eqn:Hzero; [lia|].
  apply Z.eqb_neq in Hzero.
  destruct (200 <? limitcount (settings o)) eqn:Hbig; [lia|].
  apply Z.ltb_ge in Hbig. lia.
Qed.

(** What the request names.  The IMDb id goes out without its first two
    characters.  A request of type [show] carries the season and an episode
    number that is never 0: the given episode, or 1 when none, or 0, is
    given.  A request of another type carries neither. *)
Theorem construct_url_numbers (o : Orionoid) (media_type imdb_id : string)
  (season episode : option Z) :
  let params := construct_params o media_type imdb_id season episode in
  dict_get "type" params = Some (VStr media_type)
  ∧ dict_get "idimdb" params = Some (VStr (string_drop 2 imdb_id))
  ∧ (media_type = "show" →
     dict_get "numberseason" params = Some (of_int season)
     ∧ ∃ e, dict_get "numberepisode" params = Some (VInt e) ∧ e ≠ 0
            ∧ (∀ n, episode = Some n → n ≠ 0 → e = n)
            ∧ (episode = None ∨ episode = Some 0 → e = 1))
  ∧ (media_type ≠ "show" →
     dict_get "numberseason" params = None
     ∧ dict_get "numberepisode" params = None).
Proof.
  intros params. subst params. unfold construct_params.
  split; [|split; [|split]].
  - destruct (is_unlimited o), (200 <? limitcount (settings o)),
      (String.eqb media_type "show"); reflexivity.
  - destruct (is_unlimited o), (200 <? limitcount (settings o)),
      (String.eqb media_type "show"); reflexivity.
  - intros ->. simpl. split.
    + destruct (is_unlimited o), (200 <? limitcount (settings o));
        reflexivity.
    + destruct episode as [n|]; [destruct (n =? 0) eqn:Hn|].
      * apply Z.eqb_eq in Hn as ->. exists 1.
        split; [|split; [done|split; [by intros ? [= <-]|done]]].
        destruct (is_unlimited o), (200 <? limitcount (settings o));
          reflexivity.
      * apply Z.eqb_neq in Hn. exists n.
        split; [|split; [done|split; [by intros ? [= <-]|]]].
        -- destruct (is_unlimited o), (200 <? limitcount (settings o));
             reflexivity.
        -- intros [?|[= ?]]; done.
      * exists 1.
        split; [|split; [done|split; [done|done]]].
        destruct (is_unlimited o), (200 <? limitcount (settings o));
          reflexivity.
  - intros Hne. rewrite (proj2 (String.eqb_neq _ _) Hne).
    destruct (is_unlimited o), (200 <? limitcount (settings o));
      split; reflexivity.
Qed.

Lemma truthy_Some (s : string) : truthy (Some s) = true ↔ s ≠ "".
Proof.
  unfold truthy. rewrite negb_true_iff. apply String.eqb_neq.
Qed.

Lemma collect_torrents_step (stream : Stream) (rest : list Stream)
  (torrents : list (string * string)) :
  (∃ hash name, file_hash stream = Some hash ∧ file_name stream = Some name
     ∧ hash ≠ "" ∧ name ≠ ""
     ∧ collect_torrents (stream :: rest) torrents
       = collect_torrents rest (dict_set hash name torrents))
  ∨ (¬ usable stream
     ∧ collect_torrents (stream :: rest) torrents
       = collect_torrents rest torrents).
Proof.
  cbn [collect_torrents]. unfold usable.
  destruct (file_hash stream) as [hash|] eqn:Hh;
    [|right; split; [by intros (? & ? & ? & _)|done]].
  destruct (file_name stream) as [name|] eqn:Hn;
    [|right; split; [by intros (? & ? & ? & ? & _)|done]].
  destruct (truthy (Some hash)) eqn:Hth; cbn [negb orb].
  - destruct (truthy (Some name)) eqn:Htn; cbn [negb orb].
    + apply truthy_Some in Hth, Htn. left. exists hash, name.
      do 4 (split; [done|]). done.
    + right. split; [|done].
      intros (h' & n' & [= <-] & [= <-] & _ & Hne).
      apply truthy_Some in Hne. congruence.
  - right. split; [|done].
    intros (h' & n' & [= <-] & [= <-] & Hne & _).
    apply truthy_Some in Hne. congruence.
Qed.

Lemma collect_torrents_clean (streams : list Stream)
  (torrents : list (string * string)) :
  NoDup torrents.*1
  ∧ (∀ hash name, (hash, name) ∈ torrents → hash ≠ "" ∧ name ≠ "") →
  (NoDup (collect_torrents streams torrents).*1
   ∧ ∀ hash name, (hash, name) ∈ collect_torrents streams torrents →
                  hash ≠ "" ∧ name ≠ "")
  ∧ (length (collect_torrents streams torrents)
     ≤ length torrents + length streams)%nat.
Proof.
  revert torrents. induction streams as [|stream rest IH];
    intros torrents Hclean.
  - simpl. split; [done|lia].
  - destruct (collect_torrents_step stream rest torrents)
      as [(hash & name & _ & _ & Hh & Hn & ->)|[_ ->]].
    + destruct (IH (dict_set hash name torrents)) as [Hc Hlen].
      { destruct Hclean as [Hnd Hall]. split; [by apply dict_set_NoDup|].
        intros k v Hin. apply dict_set_elem in Hin as [[-> ->]|Hin]; [done|].
        by apply Hall. }
      split; [done|]. rewrite dict_set_length in Hlen.
      case_bool_decide; simpl; lia.
    + destruct (IH torrents Hclean) as [Hc Hlen]. split; [done|].
      simpl. lia.
Qed.

Lemma collect_torrents_last (streams : list Stream)
  (torrents : list (string * string)) (hash name : string) :
  dict_get hash torrents = Some name →
  (∀ stream, stream ∈ streams → usable stream →
             file_hash stream ≠ Some hash) →
  dict_get hash (collect_torrents streams torrents) = Some name.
Proof.
  revert torrents. induction streams as [|stream rest IH];
    intros torrents Hget Hlater; [done|].
  destruct (collect_torrents_step stream rest torrents)
    as [(h' & n' & Hh & Hn & Hh' & Hn' & ->)|[_ ->]].
  - apply IH.
    + rewrite dict_get_set_ne; [done|]. intros ->.
      apply (Hlater stream); [by left| |done]. by exists hash, n'.
    + intros s Hs. apply Hlater. by right.
  - apply IH; [done|]. intros s Hs. apply Hlater. by right.
Qed.


Lemma collect_torrents_absent (streams : list Stream)
  (torrents : list (string * string)) (hash : string) :
  dict_get hash torrents = None →
  (∀ stream, stream ∈ streams → usable stream →
             file_hash stream ≠ Some hash) →
  dict_get hash (collect_torrents streams torrents) = None.
Proof.
  revert torrents. induction streams as [|stream rest IH];
    intros torrents Hget Hnone; [done|].
  destruct (collect_torrents_step stream rest torrents)
    as [(h' & n' & Hh & Hn & Hh' & Hn' & ->)|[_ ->]].
  - apply IH.
    + rewrite dict_get_set_ne; [done|]. intros ->.
      apply (Hnone stream); [by left| |done]. by exists hash, n'.
    + intros s Hs. apply Hnone. by right.
  - apply IH; [done|]. intros s Hs. apply Hnone. by right.
Qed.

Lemma collect_torrents_app (before after : list Stream)
  (torrents : list (string * string)) :
  collect_torrents (before ++ after) torrents
  = collect_torrents after (collect_torrents before torrents).
Proof.
  revert torrents. induction before as [|stream rest IH]; intros torrents;
    [done|].
  rewrite <- app_comm_cons.
  destruct (collect_torrents_step stream (rest ++ after) torrents)
    as [(h' & n' & Hh & Hn & Hne1 & Hne2 & ->)|[Hnot ->]];
    destruct (collect_torrents_step stream rest torrents)
      as [(h'' & n'' & Hh' & Hn' & Hne & Hne' & ->)|[Hnot' ->]];
    try apply IH.
  - assert (h' = h'') as -> by congruence.
    assert (n' = n'') as -> by congruence. apply IH.
  - exfalso. apply Hnot'. exists h', n'. do 3 (split; [done|]). done.
  - exfalso. apply Hnot. exists h'', n''. do 3 (split; [done|]). done.
Qed.

(** The dictionary that [api_scrape] builds from the streams, hash by
    hash: the name of the last usable stream with that hash, and nothing
    for a hash that no usable stream has.  It is never longer than the
    list of streams. *)
Theorem collect_torrents_lookup (streams : list Stream) (hash : string) :
  (∀ before stream after name,
     streams = before ++ stream :: after →
     file_hash stream = Some hash → file_name stream = Some name →
     hash ≠ "" → name ≠ "" →
     (∀ later, later ∈ after → usable later →
               file_hash later ≠ Some hash) →
     dict_get hash (collect_torrents streams []) = Some name)
  ∧ ((∀ stream, stream ∈ streams → usable stream →
                file_hash stream ≠ Some hash) →
     dict_get hash (collect_torrents streams []) = None)
  ∧ (length (collect_torrents streams []) ≤ length streams)%nat.
Proof.
  split; [|split].
  - intros before stream after name -> Hh Hn Hne Hne' Hlater.
    rewrite collect_torrents_app.
    destruct (collect_torrents_step stream after
                (collect_torrents before []))
      as [(h' & n' & Hh' & Hn' & _ & _ & ->)|[Hnot _]].
    + assert (h' = hash) as -> by congruence.
      assert (n' = name) as -> by congruence.
      apply collect_torrents_last; [apply dict_get_set_eq|done].
    + exfalso. apply Hnot. exists hash, name. do 3 (split; [done|]). done.
  - intros Hnone. by apply collect_torrents_absent.
  - destruct (collect_torrents_clean streams []) as [_ Hlen]; [|done].
    split; [constructor|]. intros ? ? Hin. by apply elem_of_nil in Hin.
Qed.


End OrionoidProperties.

(** * Properties of the Plex library *)

Module PlexProperties.
Import Plex.
Section WithState.
Variable state_of : MediaItem → States.

Lemma update_section_cases (section : LibrarySection) (item : MediaItem) :
  (state_of item = Symlinked ∧ update_folder item ≠ Some "updated"%string
   ∧ _update_section state_of section item
     = (true, set_update_folder (Some "updated"%string) item,
        [(section, update_folder item)]))
  ∨ ((state_of item ≠ Symlinked ∨ update_folder item = Some "updated"%string)
     ∧ _update_section state_of section item = (false, item, [])).
Proof.
  unfold _update_section.
  destruct (decide (state_of item = Symlinked)) as [Hs|Hs].
  - rewrite (bool_decide_eq_true_2 _ Hs). simpl.
    destruct (decide (update_folder item = Some "updated"%string)) as [Hu|Hu].
    + rewrite (bool_decide_eq_true_2 _ Hu). right. auto.
    + rewrite (bool_decide_eq_false_2 _ Hu). left. auto.
  - rewrite (bool_decide_eq_false_2 _ Hs). right. auto.
Qed.

Lemma update_sections_updated (wanted : string)
  (sections : list LibrarySection) (item : MediaItem) :
  update_folder item = Some "updated"%string →
  update_sections state_of wanted sections item = (item, []).
Proof.
  intros Hu. induction sections as [|section rest IH]; simpl; [done|].
  destruct (negb _); [done|].
  destruct (update_section_cases section item) as [(_ & Hne & _)|[_ ->]];
    [done|].
  by rewrite IH.
Qed.

Lemma update_sections_once (wanted : string)
  (sections : list LibrarySection) (item : MediaItem) :
  update_sections state_of wanted sections item = (item, [])
  ∨ ∃ section,
      section ∈ sections ∧ section_type section = wanted
      ∧ state_of item = Symlinked
      ∧ update_folder item ≠ Some "updated"%string
      ∧ update_sections state_of wanted sections item
        = (set_update_folder (Some "updated"%string) item,
           [(section, update_folder item)]).
Proof.
  induction sections as [|section rest IH]; simpl; [by left|].
  destruct (String.eqb (section_type section) wanted) eqn:Htype; simpl.
  - apply String.eqb_eq in Htype.
    destruct (update_section_cases section item)
      as [(Hs & Hne & ->)|[_ ->]].
    + right. exists section. rewrite update_sections_updated by done.
      split; [by left|]. done.
    + destruct IH as [->|(s & Hin & ? & ? & ? & ->)]; [by left|].
      right. exists s. split; [by right|]. done.
  - destruct IH as [->|(s & Hin & ? & ? & ? & ->)]; [by left|].
    right. exists s. split; [by right|]. done.
Qed.

Lemma update_sections_skip (wanted : string)
  (before rest : list LibrarySection) (item : MediaItem) :
  (∀ s, s ∈ before → section_type s ≠ wanted) →
  update_sections state_of wanted (before ++ rest) item
  = update_sections state_of wanted rest item.
Proof.
  induction before as [|s before IH]; intros Hskip; simpl; [done|].
  destruct (String.eqb (section_type s) wanted) eqn:Htype; simpl.
  - apply String.eqb_eq in Htype.
    by destruct (Hskip s); [left|].
  - apply IH. intros s' Hin. apply Hskip. by right.
Qed.

Lemma update_sections_first (wanted : string) (section : LibrarySection)
  (after : list LibrarySection) (item : MediaItem) :
  section_type section = wanted →
  state_of item = Symlinked →
  update_folder item ≠ Some "updated"%string →
  update_sections state_of wanted (section :: after) item
  = (set_update_folder (Some "updated"%string) item,
     [(section, update_folder item)]).
Proof.
  intros Htype Hs Hne. simpl.
  apply String.eqb_eq in Htype. rewrite Htype. simpl.
  destruct (update_section_cases section item)
    as [(_ & _ & ->)|[[?|?] _]]; [|done|done].
  by rewrite update_sections_updated.
Qed.

(** Refreshing the library for an item.  Whatever the sections of the
    server and whatever the state classifier, [update_item_section] asks
    for at most one refresh.  For a symlinked item whose folder is not
    marked [updated] yet it is the refresh of the first section, in the
    order of the server, whose type is the wanted one (the item's own,
    [show] for an episode), with the item's folder: the sections before it
    are of another type, and the sections after it are not refreshed,
    whatever their type.  For an item that is not symlinked, or whose
    folder is marked already, or when no section has the wanted type,
    nothing is asked for and the item is unchanged.  A refresh marks the
    folder, so that doing it again asks for nothing. *)
Theorem update_item_section_once (sections : list LibrarySection)
  (item : MediaItem) :
  let wanted := if String.eqb (item_type item) "episode" then "show"%string
                else item_type item in
  (update_item_section state_of sections item = (item, [])
   ∨ ∃ section,
       section ∈ sections ∧ section_type section = wanted
       ∧ state_of item = Symlinked
       ∧ update_folder item ≠ Some "updated"%string
       ∧ update_item_section state_of sections item
         = (set_update_folder (Some "updated"%string) item,
            [(section, update_folder item)]))
  ∧ (∀ before section after,
       sections = before ++ section :: after →
       (∀ s, s ∈ before → section_type s ≠ wanted) →
       section_type section = wanted →
       state_of item = Symlinked →
       update_folder item ≠ Some "updated"%string →
       update_item_section state_of sections item
       = (set_update_folder (Some "updated"%string) item,
          [(section, update_folder item)]))
  ∧ (update_folder item = Some "updated"%string ∨ state_of item ≠ Symlinked
     ∨ (∀ s, s ∈ sections → section_type s ≠ wanted) →
     update_item_section state_of sections item = (item, []))
  ∧ ∀ sections',
      (update_item_section state_of sections item).2 ≠ [] →
      update_item_section state_of sections'
        (update_item_section state_of sections item).1
      = ((update_item_section state_of sections item).1, []).
Proof.
  intros wanted. unfold update_item_section. fold wanted.
  pose proof (update_sections_once wanted sections item) as Honce.
  split; [exact Honce|]. split; [|split].
  - intros before section after -> Hbefore Htype Hs Hne.
    rewrite update_sections_skip by done.
    by apply update_sections_first.
  - intros Hcase.
    destruct Honce as [->|(s & Hin & Htype & Hs & Hne & _)]; [done|].
    destruct Hcase as [?|[?|Hnone]]; [done|done|].
    by destruct (Hnone s Hin).
  - intros sections' Hcalls.
    destruct Honce as [Hnone|(s & _ & _ & _ & _ & Hsome)].
    + rewrite Hnone in Hcalls. done.
    + rewrite Hsome. simpl.
      assert (item_type (set_update_folder (Some "updated"%string) item)
              = item_type item) as -> by done.
      fold wanted. by apply update_sections_updated.
Qed.
End WithState.
End PlexProperties.

(** * The further properties on the small libraries *)

Local Open Scope positive_scope.

(** A retried item that was downloaded goes to the symlinker. *)
Lemma select_branch_by_state_witness :
  (Program ∉ source_services) ∧ Program ≠ TraktIndexer
  ∧ select_branch Program Downloaded = ToSymlinker
  ∧ select_branch Program PartiallyCompleted = PartialToScraper.
Proof.
  assert (Program ∉ source_services) as Hsrc.
  { apply (bool_decide_unpack _). vm_compute. exact I. }
  split; [exact Hsrc|]. split; [discriminate|]. split.
  - apply (proj2 (select_branch_by_state Program Downloaded) Hsrc).
    discriminate.
  - apply (proj2 (select_branch_by_state Program PartiallyCompleted) Hsrc).
    discriminate.
Defined.

(** The indexed show: both seasons go to the scraper, and it accepts
    them. *)
Lemma scraper_submissions_accepted_witness :
  @process_event env library None TraktIndexer 10
    = Some (library, (Some 10, Some Scraping, [11; 13]))
  ∧ 11 ∈ [11; 13]
  ∧ @can_we_scrape env library 11 = true.
Proof.
  assert (@process_event env library None TraktIndexer 10
          = Some (library, (Some 10, Some Scraping, [11; 13]))) as Hrun
    by (vm_compute; reflexivity).
  assert (11 ∈ [11; 13]) as Hin by (by left).
  split; [exact Hrun|]. split; [exact Hin|].
  exact (@scraper_submissions_accepted env library None TraktIndexer 10
           library (Some 10) [11; 13] Hrun 11 Hin).
Defined.

Lemma scraper_skips_completed_children_witness :
  @process_event env library None TraktIndexer 10
    = Some (library, (Some 10, Some Scraping, [11; 13]))
  ∧ 13 ∈ [11; 13] ∧ 13 ≠ 10
  ∧ @state env library 13 ≠ Completed.
Proof.
  assert (@process_event env library None TraktIndexer 10
          = Some (library, (Some 10, Some Scraping, [11; 13]))) as Hrun
    by (vm_compute; reflexivity).
  assert (13 ∈ [11; 13]) as Hin by (right; by left).
  assert (13 ≠ 10) as Hne by discriminate.
  split; [exact Hrun|]. split; [exact Hin|]. split; [exact Hne|].
  exact (@scraper_skips_completed_children env library None TraktIndexer 10
           library 10 [11; 13] Hrun 13 Hin Hne).
Defined.

(** The downloaded season: its only episode that is not symlinked is
    ready, so the season goes to the symlinker whole. *)
Lemma symlinker_submissions_ready_witness :
  downloads !! 21 = Some season_downloaded
  ∧ @process_event env downloads None Program 21
      = Some (downloads, (Some 21, Some Symlinker, [21]))
  ∧ @symlinker_should_submit env downloads 21 = true.
Proof.
  assert (@process_event env downloads None Program 21
          = Some (downloads, (Some 21, Some Symlinker, [21]))) as Hrun
    by (vm_compute; reflexivity).
  split; [reflexivity|]. split; [exact Hrun|].
  destruct (@symlinker_submissions_ready env downloads None Program 21
              season_downloaded downloads (Some 21) [21] eq_refl Hrun)
    as (_ & _ & Hall).
  destruct (Hall 21) as [Hok _]; [by left|exact Hok].
Defined.

Lemma submissions_are_local_witness :
  library !! 10 = Some show_indexed
  ∧ @process_event env library None TraktIndexer 10
      = Some (library, (Some 10, Some Scraping, [11; 13]))
  ∧ (13 = 10 ∨ parent_of show_indexed = Some 13 ∨ None = Some 13
     ∨ 13 ∈ children_of show_indexed
     ∨ ∃ e eo, None = Some e ∧ library !! e = Some eo
               ∧ 13 ∈ children_of eo).
Proof.
  assert (@process_event env library None TraktIndexer 10
          = Some (library, (Some 10, Some Scraping, [11; 13]))) as Hrun
    by (vm_compute; reflexivity).
  split; [reflexivity|]. split; [exact Hrun|].
  apply (@submissions_are_local env library None TraktIndexer 10
           show_indexed library (Some 10) (Some Scraping) [11; 13]
           eq_refl Hrun 13).
  right. by left.
Defined.

Lemma merged_item_by_service_witness :
  @process_event env library None Overseerr 3
    = Some (library, (None, Some TraktIndexer, [3]))
  ∧ (None : option ref) = None ∧ library = library.
Proof.
  assert (@process_event env library None Overseerr 3
          = Some (library, (None, Some TraktIndexer, [3]))) as Hrun
    by (vm_compute; reflexivity).
  split; [exact Hrun|].
  apply (proj1 (@merged_item_by_service env library None Overseerr 3
                  library None TraktIndexer [3] Hrun)).
  reflexivity.
Defined.

Lemma linear_stages_witness :
  library !! 1 = Some movie_scraped
  ∧ (Program ∉ source_services) ∧ Program ≠ TraktIndexer
  ∧ @state env library 1 = Scraped
  ∧ @process_event env library (Some 1) Program 1
      = Some (library, (Some 1, Some Downloader, [1])).
Proof.
  assert (Program ∉ source_services) as Hsrc.
  { apply (bool_decide_unpack _). vm_compute. exact I. }
  assert (@state env library 1 = Scraped) as Hstate
    by (vm_compute; reflexivity).
  split; [reflexivity|]. split; [exact Hsrc|]. split; [discriminate|].
  split; [exact Hstate|].
  destruct (@linear_stages env library (Some 1) Program 1 movie_scraped
              eq_refl Hsrc) as (Hscraped & _); [discriminate|].
  exact (Hscraped Hstate).
Defined.

Lemma next_service_range_witness :
  @process_event env downloads None Program 7
    = Some (downloads, (Some 7, Some Symlinker, [7]))
  ∧ Symlinker ∈ [TraktIndexer; Scraping; Downloader; Symlinker; PlexUpdater].
Proof.
  assert (@process_event env downloads None Program 7
          = Some (downloads, (Some 7, Some Symlinker, [7]))) as Hrun
    by (vm_compute; reflexivity).
  split; [exact Hrun|].
  exact (@next_service_range env downloads None Program 7 downloads
           (Some 7) Symlinker [7] Hrun).
Defined.

(** A turn on the season queued four times takes one event; a turn of the
    idle program changes nothing. *)
Lemma run_iteration_turn_witness :
  @validate spec_graph season_queued_four_times = true
  ∧ event_queue season_queued_four_times
    = mkEvent Program 11 :: replicate 3 (mkEvent Program 11)
  ∧ event_queue <$> @run_iteration env spec_graph season_queued_four_times
    = Some (replicate 3 (mkEvent Program 11))
  ∧ @run_iteration env spec_graph idle_program = Some idle_program.
Proof.
  assert (@validate spec_graph season_queued_four_times = true) as Hvalid
    by (vm_compute; reflexivity).
  split; [exact Hvalid|]. split; [reflexivity|]. split.
  - destruct (@run_iteration env spec_graph season_queued_four_times)
      as [p'|] eqn:Hrun; [|vm_compute in Hrun; discriminate].
    destruct (proj2 (@run_iteration_turn env spec_graph
                       season_queued_four_times)
                (mkEvent Program 11) (replicate 3 (mkEvent Program 11)) p'
                Hvalid eq_refl Hrun) as [Hq _].
    simpl. rewrite Hq. reflexivity.
  - apply (proj1 (@run_iteration_turn env spec_graph idle_program)).
    right. reflexivity.
Defined.

Lemma run_invariants_witness :
  ∃ p', @run env spec_graph 4 season_queued_four_times = Some p'
        ∧ executor season_queued_four_times `prefix_of` executor p'
        ∧ (length (event_queue p')
           ≤ length (event_queue season_queued_four_times))%nat.
Proof.
  destruct (@run env spec_graph 4 season_queued_four_times) as [p'|] eqn:Hrun;
    [|vm_compute in Hrun; discriminate].
  exists p'. split; [reflexivity|].
  destruct (@run_invariants env spec_graph 4 season_queued_four_times p' Hrun)
    as (Hpre & Hle & _).
  split; [exact Hpre|exact Hle].
Defined.

(** The season that was scraped three times. *)
Lemma season_scraped_three_times_is_dropped_witness :
  store idle_program !! 13 = Some season_scraped_thrice
  ∧ is_Season season_scraped_thrice = true
  ∧ scraped_times season_scraped_thrice = 3%Z
  ∧ @can_we_scrape env (store idle_program) 13 = true
  ∧ @scrape_expansion env (store idle_program) 13 = Some [13]
  ∧ @submit_items spec_graph (Some Scraping) [13] idle_program
    = Some idle_program.
Proof.
  split; [reflexivity|]. split; [reflexivity|]. split; [reflexivity|].
  split; [reflexivity|].
  apply (@season_scraped_three_times_is_dropped env spec_graph idle_program
           13 season_scraped_thrice); reflexivity.
Defined.

Lemma completed_event_is_inert_witness :
  @validate spec_graph completed_queued = true
  ∧ event_queue completed_queued = [mkEvent Program 2]
  ∧ store completed_queued !! 2 = Some movie_completed
  ∧ (Program ∉ source_services) ∧ Program ≠ TraktIndexer
  ∧ @state env (store completed_queued) 2 = Completed
  ∧ @run_iteration env spec_graph completed_queued
    = Some (@set_event_queue spec_graph [] completed_queued).
Proof.
  assert (@validate spec_graph completed_queued = true) as Hvalid
    by (vm_compute; reflexivity).
  assert (Program ∉ source_services) as Hsrc.
  { apply (bool_decide_unpack _). vm_compute. exact I. }
  assert (@state env (store completed_queued) 2 = Completed) as Hstate
    by (vm_compute; reflexivity).
  split; [exact Hvalid|]. split; [reflexivity|]. split; [reflexivity|].
  split; [exact Hsrc|]. split; [discriminate|]. split; [exact Hstate|].
  apply (@completed_event_is_inert env spec_graph completed_queued
           (mkEvent Program 2) [] movie_completed Hvalid eq_refl eq_refl
           Hsrc); [discriminate|exact Hstate].
Defined.

Lemma clear_queue_quiets_witness :
  event_queue (@clear_queue spec_graph season_queued_four_times) = []
  ∧ @run env spec_graph 7 (@clear_queue spec_graph season_queued_four_times)
    = Some (@clear_queue spec_graph season_queued_four_times).
Proof.
  destruct (@clear_queue_quiets env spec_graph season_queued_four_times 7)
    as [Hclear Hrun].
  split; [rewrite Hclear; reflexivity|exact Hrun].
Defined.

Lemma own_events_witness :
  event_queue (@_retry_library spec_graph [11; 12] completed_queued)
  = [mkEvent Program 2; mkEvent Program 11; mkEvent Program 12]
  ∧ (select_branch Program Unknown = ToIndexer ↔ Unknown = Unknown).
Proof.
  destruct (@own_events spec_graph completed_queued)
    as (Hretry & _ & _ & Hroute).
  split; [rewrite Hretry; reflexivity|apply Hroute].
Defined.

Lemma callback_enqueues_items_witness :
  event_queue
    (@_process_future_item spec_graph
       (mkFuture [YieldItem 1; YieldOther; YieldItem 2] Exhausted id)
       Overseerr idle_program).2
  = [mkEvent Overseerr 1; mkEvent Overseerr 2]
  ∧ (@_process_future_item spec_graph
       (mkFuture [YieldItem 1; YieldOther; YieldItem 2] Exhausted id)
       Overseerr idle_program).1 = Returns.
Proof.
  destruct (@callback_enqueues_items spec_graph
              (mkFuture [YieldItem 1; YieldOther; YieldItem 2] Exhausted id)
              Overseerr idle_program) as (Hends & Hcall & _).
  split; [rewrite Hcall; reflexivity|].
  apply Hends. discriminate.
Defined.

Lemma initialized_registry_serves_router_witness :
  Scraping ∈ [TraktIndexer; Scraping; Downloader; Symlinker; PlexUpdater]
  ∧ executor <$>
      @_submit_job spec_graph (Some Scraping) (Some 11)
        (@initialize_services spec_graph (λ _, false) idle_program)
    = Some [(Scraping, Some 11)].
Proof.
  assert (Scraping
          ∈ [TraktIndexer; Scraping; Downloader; Symlinker; PlexUpdater])
    as Hin by (right; by left).
  split; [exact Hin|].
  destruct (@initialized_registry_serves_router spec_graph (λ _, false)
              idle_program Scraping (Some 11)) as [Hsubmit _].
  rewrite (Hsubmit Hin). reflexivity.
Defined.

Lemma validate_after_initialize_witness :
  @validate spec_graph
    (@initialize_services spec_graph
       (λ s, negb (bool_decide (s = PlexLibrary))) idle_program) = true
  ∧ @validate spec_graph
      (@initialize_services spec_graph
         (λ s, negb (bool_decide (s = TraktIndexer))) idle_program) = false.
Proof.
  split; rewrite (@validate_after_initialize spec_graph); reflexivity.
Defined.

Local Close Scope positive_scope.

(** The three torrents sorted: the one of rank 50 first, the two of rank 10
    behind it in the order in which they were added. *)
Lemma sorted_by_rank_stable_witness :
  Parser.sorted_by_rank unit [torrent_a; torrent_b; torrent_c]
  = [torrent_b; torrent_a; torrent_c].
Proof.
  symmetry.
  apply (ParserProperties.sorted_by_rank_stable
           [torrent_a; torrent_b; torrent_c]).
  - repeat constructor; vm_compute; discriminate.
  - intros r. rewrite !filter_cons, !filter_nil.
    repeat case_decide; try reflexivity;
      match goal with
      | H : Parser.rank _ _ = _, H' : Parser.rank _ _ ≠ _ |- _ =>
          vm_compute in H, H'; congruence
      | H : Parser.rank _ _ = _, H' : Parser.rank _ _ = _ |- _ =>
          vm_compute in H, H'; congruence
      end.
Defined.

Lemma add_lookup_witness :
  "bbbb"%string ≠ Parser.infohash unit torrent_c
  ∧ dict_get "cccc" scraped_torrents = Some torrent_c
  ∧ dict_get "bbbb" scraped_torrents = Some torrent_b
  ∧ Parser.keyed_by_infohash unit scraped_torrents.
Proof.
  assert ("bbbb"%string ≠ Parser.infohash unit torrent_c) as Hne
    by discriminate.
  split; [exact Hne|]. unfold scraped_torrents.
  destruct (ParserProperties.add_lookup torrent_c
              (Parser.add unit torrent_b (Parser.add unit torrent_a [])))
    as (Hget & Hother & _ & Hkeyed).
  split; [exact Hget|]. split.
  - rewrite (Hother "bbbb"%string Hne). reflexivity.
  - apply Hkeyed.
    apply (ParserProperties.add_lookup torrent_b
             (Parser.add unit torrent_a [])).
    apply (ParserProperties.add_lookup torrent_a []).
    split; [constructor|]. intros k t Hin. by apply elem_of_nil in Hin.
Defined.

Lemma sort_keeps_entries_witness :
  Parser.keyed_by_infohash unit scraped_torrents
  ∧ Parser.sort unit scraped_torrents
    = [("bbbb"%string, torrent_b); ("aaaa"%string, torrent_a);
       ("cccc"%string, torrent_c)]
  ∧ dict_get "aaaa" (Parser.sort unit scraped_torrents) = Some torrent_a.
Proof.
  assert (Parser.keyed_by_infohash unit scraped_torrents) as Hkeyed.
  { assert (scraped_torrents
            = [("aaaa"%string, torrent_a); ("bbbb"%string, torrent_b);
               ("cccc"%string, torrent_c)]) as -> by reflexivity.
    split.
    - simpl. repeat constructor; rewrite ?elem_of_cons, ?elem_of_nil;
        intros Hin; repeat destruct Hin as [Hin|Hin]; done.
    - intros k t Hin. rewrite !elem_of_cons, elem_of_nil in Hin.
      destruct Hin as [[= -> ->]|[[= -> ->]|[[= -> ->]|[]]]]; reflexivity. }
  split; [exact Hkeyed|].
  destruct (ParserProperties.sort_keeps_entries scraped_torrents Hkeyed)
    as (Hsort & _ & _ & Hget & _).
  split; [rewrite Hsort; reflexivity|].
  rewrite Hget. reflexivity.
Defined.

(** The scraper made with a good key, and with a server that fails. *)
Lemma init_sound_witness :
  Orionoid.__init__ orionoid_settings reply_server_error reply_server_error
  = Some (Orionoid.mkOrionoid orionoid_settings false false true)
  ∧ Orionoid.locally_valid orionoid_settings.
Proof.
  assert (Orionoid.__init__ orionoid_settings reply_server_error
            reply_server_error
          = Some (Orionoid.mkOrionoid orionoid_settings false false true))
    as Hinit by reflexivity.
  split; [exact Hinit|].
  destruct (OrionoidProperties.init_sound orionoid_settings
              reply_server_error reply_server_error _ Hinit)
    as (_ & Hlocal & _).
  apply Hlocal. reflexivity.
Defined.


Lemma construct_url_limitcount_witness :
  0 ≤ Orionoid.limitcount (Orionoid.settings orionoid)
  ∧ dict_get "limitcount"
      (Orionoid.construct_params orionoid "movie" "tt1234567" None None)
    = Some (Orionoid.VInt 200).
Proof.
  split; [vm_compute; discriminate|].
  rewrite (proj1 (OrionoidProperties.construct_url_limitcount orionoid
                    "movie" "tt1234567" None None)).
  reflexivity.
Defined.

Lemma construct_url_numbers_witness :
  dict_get "numberseason"
    (Orionoid.construct_params orionoid "show" "tt1234567" (Some 2) None)
  = Some (Orionoid.VInt 2)
  ∧ dict_get "idimdb"
      (Orionoid.construct_params orionoid "show" "tt1234567" (Some 2) None)
    = Some (Orionoid.VStr "1234567")
  ∧ Orionoid.construct_url orionoid "show" (Some "tt1234567") (Some 2)
      (Some 0)
    = Some ("https://api.orionoid.com?keyapp=D3CH6HMX9KD9EMD68RXRCDUNBDJV5HRR"
            +:+ "&keyuser=0123456789ABCDEF0123456789ABCDEF&mode=stream"
            +:+ "&action=retrieve&type=show&idimdb=1234567"
            +:+ "&streamtype=torrent&filename=true&limitcount=200"
            +:+ "&video3d=false&sortorder=descending&sortvalue=best"
            +:+ "&numberseason=2&numberepisode=1").
Proof.
  destruct (OrionoidProperties.construct_url_numbers orionoid "show"
              "tt1234567" (Some 2) None) as (_ & Hid & Hshow & _).
  destruct (Hshow eq_refl) as [Hseason _].
  split; [exact Hseason|]. split; [exact Hid|]. reflexivity.
Defined.

Lemma collect_torrents_lookup_witness :
  dict_get "h1" (Orionoid.collect_torrents streams_found [])
  = Some "second.mkv"%string
  ∧ dict_get "h2" (Orionoid.collect_torrents streams_found []) = None.
Proof.
  destruct (OrionoidProperties.collect_torrents_lookup streams_found "h1")
    as (Hlast & _).
  destruct (OrionoidProperties.collect_torrents_lookup streams_found "h2")
    as (_ & Hnone & _).
  split.
  - apply (Hlast [Orionoid.mkStream (Some "h1"%string)
                    (Some "first.mkv"%string);
                  Orionoid.mkStream None (Some "nameless.mkv"%string)]
             (Orionoid.mkStream (Some "h1"%string)
                (Some "second.mkv"%string)) [] "second.mkv"%string);
      try reflexivity; try discriminate.
    intros later Hin. by apply elem_of_nil in Hin.
  - apply Hnone. intros stream Hin _.
    unfold streams_found in Hin. rewrite !elem_of_cons, elem_of_nil in Hin.
    destruct Hin as [->|[->|[->|[]]]]; discriminate.
Defined.


Lemma update_item_section_once_witness :
  Plex.update_item_section leaf_state plex_sections movie_symlinked
  = (Plex.set_update_folder (Some "updated"%string) movie_symlinked,
     [(Plex.mkSection "movie" "Films",
       Some "/library/movies/Eight (2022)"%string)])
  ∧ Plex.update_item_section leaf_state plex_sections
      (Plex.set_update_folder (Some "updated"%string) movie_symlinked)
    = (Plex.set_update_folder (Some "updated"%string) movie_symlinked, []).
Proof.
  destruct (PlexProperties.update_item_section_once leaf_state plex_sections
              movie_symlinked) as (_ & Hfirst & _ & Hagain).
  specialize (Hfirst [Plex.mkSection "show" "TV"]
                (Plex.mkSection "movie" "Films")
                [Plex.mkSection "movie" "More films"]).
  assert (Plex.update_item_section leaf_state plex_sections movie_symlinked
          = (Plex.set_update_folder (Some "updated"%string) movie_symlinked,
             [(Plex.mkSection "movie" "Films",
               Some "/library/movies/Eight (2022)"%string)])) as Hcall.
  { apply Hfirst; [reflexivity| |reflexivity|reflexivity|discriminate].
    intros s Hin. apply list_elem_of_singleton in Hin as ->. discriminate. }
  split; [exact Hcall|].
  specialize (Hagain plex_sections). rewrite Hcall in Hagain.
  apply Hagain. discriminate.
Defined.
